(** * Boost.Compute: stable_sort dispatch, the program wrapper, is_vector_type

    A shallow embedding of
    - include/boost/compute/algorithm/stable_sort.hpp,
    - include/boost/compute/program.hpp,
    - include/boost/compute/type_traits/is_vector_type.hpp,
    with the properties of these headers stated and proved. *)

From Stdlib Require Import NArith ZArith Lia String.
From stdpp Require Import base list sorting gmap strings.

Local Open Scope N_scope.

(** ** algorithm/stable_sort.hpp *)

Module StableSort.

(** The kernels a call enqueues on the command queue, in order. *)
Inductive kernel_call :=
| radix_sort_call
| reverse_call
| serial_insertion_sort_call.

(** What overload resolution sees of the iterator: a [buffer_iterator<T>]
    or any other device iterator over [T]. *)
Inductive iterator := buffer_iterator | other_iterator.

(** The comparator argument of [stable_sort] for value type [T]:
    the function objects [less<T>] and [greater<T>], or any other binary
    predicate (a [less<U>] with [U] different from the iterator's value type
    is such a predicate: [T] is not deduced for the two special overloads). *)
Inductive compare (T : Type) :=
| less
| greater
| functor (f : T → T → bool).
Arguments less {T}.
Arguments greater {T}.
Arguments functor {T} f.

(** The device side of a call: the contents of the range [first, last) and
    the kernels enqueued so far. *)
Record device (T : Type) := Device {
  range : list T;
  calls : list kernel_call
}.
Arguments Device {T} range calls.
Arguments range {T} d.
Arguments calls {T} d.

Section Dispatch.
Context {T : Type}.

(** [operator<] of [T], which [less<T>] and [greater<T>] emit. *)
Variable op_lt : T → T → bool.
(** The trait [is_radix_sortable<T>::value] (detail/radix_sort.hpp). *)
Variable is_radix_sortable : bool.
(** The unsigned key of a value, whose binary digits the radix sort
    inspects, and the number of digits (the width of [T]). *)
Variable radix_key : T → N.
Variable radix_bits : nat.

Definition apply (c : compare T) (a b : T) : bool :=
  match c with
  | less => op_lt a b
  | greater => op_lt b a
  | functor f => f a b
  end.

(** Modelled from the spec: [detail::radix_sort] (detail/radix_sort.hpp is
    absent), "radix sort in ascending order": a least significant digit
    first radix sort over the binary digits of the key, each pass a stable
    split of the range by the digit. *)
Definition radix_digit (k : nat) (x : T) : bool :=
  N.testbit (radix_key x) (N.of_nat k).

Definition radix_pass (k : nat) (l : list T) : list T :=
  filter (λ x, radix_digit k x = false) l ++
  filter (λ x, radix_digit k x = true) l.

Fixpoint radix_passes (k n : nat) (l : list T) : list T :=
  match n with
  | O => l
  | S n' => radix_passes (S k) n' (radix_pass k l)
  end.

Definition radix_sort (d : device T) : device T :=
  Device (radix_passes 0 radix_bits (range d)) (calls d ++ [radix_sort_call]).

(** Modelled from the spec: [detail::serial_insertion_sort]
    (detail/insertion_sort.hpp is absent), the insertion-sort kernel: each
    value in turn moves left past the values of the sorted prefix it
    compares less than.  The prefix is kept last element first. *)
Fixpoint insert_value (cmp : T → T → bool) (value : T) (prefix : list T) : list T :=
  match prefix with
  | [] => [value]
  | y :: prefix' =>
      if cmp value y then y :: insert_value cmp value prefix'
      else value :: prefix
  end.

Definition insertion_sort (cmp : T → T → bool) (l : list T) : list T :=
  rev (fold_left (λ prefix value, insert_value cmp value prefix) l []).

Definition serial_insertion_sort (cmp : T → T → bool) (d : device T) : device T :=
  Device (insertion_sort cmp (range d)) (calls d ++ [serial_insertion_sort_call]).

(** Modelled from the spec: [reverse] (algorithm/reverse.hpp is absent),
    "reverse range to descending order". *)
Definition reverse (d : device T) : device T :=
  Device (rev (range d)) (calls d ++ [reverse_call]).

(** [detail::dispatch_stable_sort]: the three overloads, with the choice
    overload resolution makes between them. *)
Definition dispatch_stable_sort (first_last : iterator) (c : compare T)
    (queue : device T) : device T :=
  match first_last, c with
  | buffer_iterator, less =>
      if is_radix_sortable then radix_sort queue
      else serial_insertion_sort (apply c) queue
  | buffer_iterator, greater =>
      if is_radix_sortable then
        (* radix sort in ascending order *)
        let queue := radix_sort queue in
        (* reverse range to descending order *)
        reverse queue
      else serial_insertion_sort (apply c) queue
  | _, _ => serial_insertion_sort (apply c) queue
  end.

Definition stable_sort (first_last : iterator) (c : compare T)
    (queue : device T) : device T :=
  dispatch_stable_sort first_last c queue.

(** The overload without a comparator. *)
Definition stable_sort_overload (first_last : iterator) (queue : device T) : device T :=
  let less_ : compare T := less in
  stable_sort first_last less_ queue.

(** *** What the header promises of a sort *)

(** [l] is sorted according to [cmp]: no value compares less than a value
    before it. *)
Definition sorted_by (cmp : T → T → bool) (l : list T) : Prop :=
  StronglySorted (λ a b, cmp b a = false) l.

(** Two values compare equal when neither is less than the other. *)
Definition equivalent (cmp : T → T → bool) (a b : T) : bool :=
  negb (cmp a b) && negb (cmp b a).

(** The requirements on a comparator. *)
Record strict_weak_order (cmp : T → T → bool) : Prop := {
  swo_irrefl : ∀ x, cmp x x = false;
  swo_trans : ∀ x y z, cmp x y = true → cmp y z = true → cmp x z = true;
  swo_equiv_trans : ∀ x y z,
    equivalent cmp x y = true → equivalent cmp y z = true →
    equivalent cmp x z = true
}.

(** The values that compare equal to any given value stand in [after] in
    the order they had in [before]. *)
Definition order_preserved (cmp : T → T → bool) (before after : list T) : Prop :=
  ∀ c, filter (λ x, equivalent cmp c x = true) after =
       filter (λ x, equivalent cmp c x = true) before.

(** Modelled from the spec: the radix sort is "in ascending order": a value
    that is less than another has the smaller key.  Values that compare
    equal may have one key or different keys. *)
Definition radix_ascending : Prop :=
  is_radix_sortable = true →
  ∀ x y, op_lt x y = true → radix_key x < radix_key y.

(** The order of the keys is [operator<] itself: values compare equal
    exactly when they have one key.  Values of one key may still differ. *)
Definition radix_exact : Prop :=
  is_radix_sortable = true →
  ∀ x y, op_lt x y = (radix_key x <? radix_key y).

(** Every value of the range fits the width of [T]. *)
Definition in_range (l : list T) : Prop :=
  is_radix_sortable = true →
  Forall (λ x, radix_key x < 2 ^ N.of_nat radix_bits) l.

(** The case the two special overloads cover. *)
Definition radix_case (first_last : iterator) (c : compare T) : bool :=
  match first_last, c with
  | buffer_iterator, less | buffer_iterator, greater => is_radix_sortable
  | _, _ => false
  end.

(** The key restricted to its [k] low digits. *)
Definition low_key (k : nat) (x : T) : N :=
  radix_key x mod 2 ^ N.of_nat k.

End Dispatch.

(** Values that compare equal and differ, as the two zeros of a
    floating-point type do: a key with a mark that [operator<] does not look
    at. *)
Definition marked_lt (a b : N * N) : bool := a.1 <? b.1.
Definition marked_key (a : N * N) : N := a.1.

(** The same with a key that tells the mark: the marked value has the
    greater key, as the positive zero has among the bits of a float. *)
Definition signed_lt (a b : N * bool) : bool := a.1 <? b.1.
Definition signed_key (a : N * bool) : N := 2 * a.1 + (if a.2 then 1 else 0).

End StableSort.

(** ** program.hpp *)

Module Program.

(** A [cl_program] handle; [0] is the null handle. *)
Abbreviation cl_program := N (only parsing).
Abbreviation cl_int := Z (only parsing).
Abbreviation cl_context := N (only parsing).
Abbreviation cl_device_id := N (only parsing).
Abbreviation cl_program_info := N (only parsing).
(** The address of a [program] object. *)
Abbreviation addr := N (only parsing).

Definition CL_SUCCESS : cl_int := 0%Z.
Definition CL_PROGRAM_CONTEXT : cl_program_info := 0x1161.
Definition CL_PROGRAM_SOURCE : cl_program_info := 0x1164.

(** [opencl_error(cl_int)] (exception.hpp). *)
Record opencl_error := Build_opencl_error { error_code : cl_int }.

(** A call returns normally or throws. *)
Inductive result (A : Type) :=
| Return (a : A)
| Throw (e : opencl_error).
Arguments Return {A} a.
Arguments Throw {A} e.

(** The reference-count calls the class makes on the driver. *)
Inductive cl_call :=
| Retain (h : cl_program)
| Release (h : cl_program).

#[global] Instance cl_call_eq_dec : EqDecision cl_call.
Proof. solve_decision. Defined.

(** The live [program] objects with their [m_program] member, the driver's
    reference count of every handle, and the calls made so far. *)
Record world := World {
  objects : gmap addr cl_program;
  refs : gmap cl_program nat;
  driver_calls : list cl_call
}.

Definition reference_count (w : world) (h : cl_program) : nat :=
  default 0%nat (refs w !! h).

Definition clRetainProgram (h : cl_program) (w : world) : world :=
  World (objects w) (<[h := S (reference_count w h)]> (refs w))
        (driver_calls w ++ [Retain h]).

Definition clReleaseProgram (h : cl_program) (w : world) : world :=
  World (objects w) (<[h := Nat.pred (reference_count w h)]> (refs w))
        (driver_calls w ++ [Release h]).

Definition m_program (w : world) (this : addr) : cl_program :=
  default 0 (objects w !! this).

Definition set_m_program (this : addr) (h : cl_program) (w : world) : world :=
  World (<[this := h]> (objects w)) (refs w) (driver_calls w).

(** [if(m_program)] *)
Definition non_null (h : cl_program) : bool := negb (h =? 0).

(** [program()] *)
Definition program_default (this : addr) (w : world) : world :=
  set_m_program this 0 w.

(** [explicit program(cl_program program, bool retain = true)] *)
Definition program_ctor (this : addr) (program : cl_program) (retain : bool)
    (w : world) : world :=
  let w := set_m_program this program w in
  if non_null (m_program w this) && retain then
    clRetainProgram (m_program w this) w
  else w.

(** [program(const program &other)] *)
Definition program_copy (this other : addr) (w : world) : world :=
  let w := set_m_program this (m_program w other) w in
  if non_null (m_program w this) then clRetainProgram (m_program w this) w
  else w.

(** [program& operator=(const program &other)] *)
Definition copy_assign (this other : addr) (w : world) : world :=
  if negb (this =? other) then
    let w :=
      if non_null (m_program w this) then clReleaseProgram (m_program w this) w
      else w in
    let w := set_m_program this (m_program w other) w in
    if non_null (m_program w this) then clRetainProgram (m_program w this) w
    else w
  else w.

(** [program(program&& other)] *)
Definition program_move (this other : addr) (w : world) : world :=
  let w := set_m_program this (m_program w other) w in
  set_m_program other 0 w.

(** [program& operator=(program&& other)] *)
Definition move_assign (this other : addr) (w : world) : world :=
  let w :=
    if non_null (m_program w this) then clReleaseProgram (m_program w this) w
    else w in
  let w := set_m_program this (m_program w other) w in
  set_m_program other 0 w.

(** [~program()]; the object's storage ends with it. *)
Definition program_dtor (this : addr) (w : world) : world :=
  let w :=
    if non_null (m_program w this) then clReleaseProgram (m_program w this) w
    else w in
  World (delete this (objects w)) (refs w) (driver_calls w).

(** *** Sequences of lifetime operations *)

Inductive op :=
| Construct (this : addr) (program : cl_program)   (* program(program, true) *)
| Default (this : addr)
| Copy (this other : addr)
| CopyAssign (this other : addr)
| Move (this other : addr)
| MoveAssign (this other : addr)
| Destroy (this : addr).

Definition live (w : world) (a : addr) : bool := bool_decide (is_Some (objects w !! a)).

(** The rules of object lifetime: a constructor runs on storage that holds no
    object, every other operation on live objects. *)
Definition valid (o : op) (w : world) : bool :=
  match o with
  | Construct this _ | Default this => negb (live w this)
  | Copy this other | Move this other => negb (live w this) && live w other
  | CopyAssign this other | MoveAssign this other => live w this && live w other
  | Destroy this => live w this
  end.

Definition run_op (o : op) (w : world) : world :=
  match o with
  | Construct this program => program_ctor this program true w
  | Default this => program_default this w
  | Copy this other => program_copy this other w
  | CopyAssign this other => copy_assign this other w
  | Move this other => program_move this other w
  | MoveAssign this other => move_assign this other w
  | Destroy this => program_dtor this w
  end.

Fixpoint run (ops : list op) (w : world) : option world :=
  match ops with
  | [] => Some w
  | o :: ops' => if valid o w then run ops' (run_op o w) else None
  end.

(** How often the calls retain, and release, the handle [h]. *)
Definition retains (h : cl_program) (w : world) : nat :=
  length (filter (λ c, c = Retain h) (driver_calls w)).
Definition releases (h : cl_program) (w : world) : nat :=
  length (filter (λ c, c = Release h) (driver_calls w)).
(** How many live objects wrap [h]. *)
Definition owners (h : cl_program) (w : world) : nat :=
  length (filter (λ p, p.2 = h) (map_to_list (objects w))).

(** A world before any [program] object exists. *)
Definition initial (counts : gmap cl_program nat) : world := World ∅ counts [].

(** The calls of [if(h){ clRetainProgram(h); }] and of
    [if(h){ clReleaseProgram(h); }]. *)
Definition retain_calls (h : cl_program) : list cl_call :=
  if non_null h then [Retain h] else [].
Definition release_calls (h : cl_program) : list cl_call :=
  if non_null h then [Release h] else [].

(** The reference count [n] of the handle [h'] after these calls. *)
Definition retained (h h' : cl_program) (n : nat) : nat :=
  if non_null h && (h' =? h) then S n else n.
Definition released (h h' : cl_program) (n : nat) : nat :=
  if non_null h && (h' =? h) then Nat.pred n else n.

(** The [program] objects account for the calls: every handle has been
    retained once more than released for each live object that wraps it, its
    count stands that much above the count it had at first, and the null
    handle has not been passed to the driver. *)
Definition balanced (counts : gmap cl_program nat) (w : world) : Prop :=
  (∀ h, h ≠ 0 →
     retains h w = (releases h w + owners h w)%nat ∧
     reference_count w h = (default 0%nat (counts !! h) + owners h w)%nat) ∧
  (Retain 0 ∉ driver_calls w) ∧ (Release 0 ∉ driver_calls w).

(** Two objects that wrap one handle: [program a(h); program b(a);] with
    [a] at address 1, [b] at address 2 and [h] the handle 7. *)
Definition two_copies : world :=
  program_copy 2 1 (program_ctor 1 7 true (initial ∅)).

(** *** Calls forwarded to the driver *)

(** [context] (context.hpp): the wrapper of a [cl_context]. *)
Record context := Build_context { m_context : cl_context }.

(** The types [get_info<T>] is used at in this header. *)
Inductive info_type :=
| T_string
| T_cl_context
| T_cl_uint
| T_size_t.

Definition value_of (T : info_type) : Type :=
  match T with
  | T_string => string
  | T_cl_context => cl_context
  | T_cl_uint => N
  | T_size_t => N
  end.

Section Driver.

(** The OpenCL driver.  A call acts on the driver's table of reference
    counts and yields what the C API returns through its result and its
    out-parameters. *)
(** [clBuildProgram(program, 0, 0, options, 0, 0)]: the return code. *)
Variable clBuildProgram :
  cl_program → option string → gmap cl_program nat → cl_int * gmap cl_program nat.
(** [clCreateProgramWithSource(context, count, strings, 0, &error)]:
    the handle and [error]. *)
Variable clCreateProgramWithSource :
  cl_context → list string → gmap cl_program nat →
  (cl_program * cl_int) * gmap cl_program nat.
(** [clCreateProgramWithBinary(context, n, devices, sizes, binaries,
    &binary_status, &error)]: the handle, [binary_status] and [error]. *)
Variable clCreateProgramWithBinary :
  cl_context → list cl_device_id → list (list N) → gmap cl_program nat →
  (cl_program * cl_int * cl_int) * gmap cl_program nat.
(** [clGetProgramInfo(program, info, ...)]: the value written, read at type
    [T], or the error code of a failed query. *)
Variable clGetProgramInfo :
  ∀ T : info_type, cl_program → cl_program_info → result (value_of T).
(** [context.get_device().id()] (context.hpp). *)
Variable get_device_id : context → cl_device_id.

(** [void build(const std::string &options = std::string())], as compiled
    without BOOST_COMPUTE_DEBUG_KERNEL_COMPILATION. *)
Definition build (this : addr) (options : string) (w : world) : result unit * world :=
  let options_string := if String.eqb options EmptyString then None else Some options in
  let '(ret, counts) := clBuildProgram (m_program w this) options_string (refs w) in
  let w := World (objects w) counts (driver_calls w) in
  if negb (ret =? CL_SUCCESS)%Z then (Throw (Build_opencl_error ret), w)
  else (Return tt, w).

(** [static program create_with_source(const std::string &source,
    const context &context)]; the returned object is built at [ret]. *)
Definition create_with_source (ret : addr) (source : string) (ctx : context)
    (w : world) : result unit * world :=
  let source_string := source in
  let '(program_, error, counts) :=
    clCreateProgramWithSource (m_context ctx) [source_string] (refs w) in
  let w := World (objects w) counts (driver_calls w) in
  if program_ =? 0 then (Throw (Build_opencl_error error), w)
  else (Return tt, program_ctor ret program_ false w).

(** [static program create_with_binary(const unsigned char *binary,
    size_t binary_size, const context &context)] *)
Definition create_with_binary (ret : addr) (binary : list N) (ctx : context)
    (w : world) : result unit * world :=
  let device := get_device_id ctx in
  let '(program_, binary_status, error, counts) :=
    clCreateProgramWithBinary (m_context ctx) [device] [binary] (refs w) in
  let w := World (objects w) counts (driver_calls w) in
  if program_ =? 0 then (Throw (Build_opencl_error error), w)
  else if negb (binary_status =? CL_SUCCESS)%Z then
    (Throw (Build_opencl_error binary_status), w)
  else (Return tt, program_ctor ret program_ false w).

(** Modelled from the spec: [detail::get_object_info<T>(function, object,
    info)] (detail/get_object_info.hpp is absent), the "get_info
    boilerplate": it runs the query [function] on [object] for [info] and
    hands back what the query yields, read as a [T]. *)
Definition get_object_info (T : info_type)
    (function : ∀ T : info_type, cl_program → cl_program_info → result (value_of T))
    (object : cl_program) (info : cl_program_info) : result (value_of T) :=
  function T object info.

(** [template<class T> T get_info(cl_program_info info) const] *)
Definition get_info (T : info_type) (this : addr) (info : cl_program_info)
    (w : world) : result (value_of T) :=
  get_object_info T clGetProgramInfo (m_program w this) info.

(** [std::string source() const] *)
Definition source (this : addr) (w : world) : result string :=
  get_info T_string this CL_PROGRAM_SOURCE w.

(** [context get_context() const] *)
Definition get_context (this : addr) (w : world) : result context :=
  match get_info T_cl_context this CL_PROGRAM_CONTEXT w with
  | Return c => Return (Build_context c)
  | Throw e => Throw e
  end.

End Driver.

(** *** The rest of the class *)

(** [cl_program& get() const] and [operator cl_program() const] *)
Definition get (this : addr) (w : world) : cl_program := m_program w this.

(** [bool operator==(const program &other) const] *)
Definition operator_eq (this other : addr) (w : world) : bool :=
  m_program w this =? m_program w other.

(** [bool operator!=(const program &other) const] *)
Definition operator_ne (this other : addr) (w : world) : bool :=
  negb (m_program w this =? m_program w other).

(** How a local [program] reaches the caller in [return prog;] or when a
    temporary initialises another object: built in place, moved or copied
    (without rvalue references); the local is destroyed after a move or a
    copy. *)
Inductive return_by := elided | moved | copied.

Definition hand_over (how : return_by) (ret local : addr) (w : world) : world :=
  match how with
  | elided => w
  | moved => program_dtor local (program_move ret local w)
  | copied => program_dtor local (program_copy ret local w)
  end.

(** Where the local lives: in the caller's object when elided. *)
Definition local_at (how : return_by) (ret local : addr) : addr :=
  match how with elided => ret | _ => local end.

Definition CL_PROGRAM_BINARY_SIZES : cl_program_info := 0x1165.
Definition CL_PROGRAM_BINARIES : cl_program_info := 0x1166.

Section MoreDriver.

Variable clBuildProgram :
  cl_program → option string → gmap cl_program nat → cl_int * gmap cl_program nat.
Variable clCreateProgramWithSource :
  cl_context → list string → gmap cl_program nat →
  (cl_program * cl_int) * gmap cl_program nat.
Variable clCreateProgramWithBinary :
  cl_context → list cl_device_id → list (list N) → gmap cl_program nat →
  (cl_program * cl_int * cl_int) * gmap cl_program nat.
Variable clGetProgramInfo :
  ∀ T : info_type, cl_program → cl_program_info → result (value_of T).
Variable get_device_id : context → cl_device_id.
(** [clCompileProgram(program, 0, 0, options, 0, 0, 0, 0, 0)]: the return
    code. *)
Variable clCompileProgram :
  cl_program → option string → gmap cl_program nat → cl_int * gmap cl_program nat.
(** [clLinkProgram(context, 0, 0, options, n, programs, 0, 0, &ret)]: the
    handle and [ret]. *)
Variable clLinkProgram :
  cl_context → option string → list cl_program → gmap cl_program nat →
  (cl_program * cl_int) * gmap cl_program nat.
(** [clCreateProgramWithBuiltInKernels(context, n, devices, names, &error)]:
    the handle and [error]. *)
Variable clCreateProgramWithBuiltInKernels :
  cl_context → list cl_device_id → string → gmap cl_program nat →
  (cl_program * cl_int) * gmap cl_program nat.
(** [clGetProgramInfo] for [CL_PROGRAM_BINARIES], given [&binary_ptr]: the
    return code and the bytes the driver writes at [binary_ptr]. *)
Variable clGetProgramBinaries : cl_program → cl_int * list N.
(** The files [std::ifstream] can open, with their characters. *)
Variable source_files : gmap string string.

(** [void compile(const std::string &options = std::string())] *)
Definition compile (this : addr) (options : string) (w : world) : result unit * world :=
  let options_string := if String.eqb options EmptyString then None else Some options in
  let '(ret, counts) := clCompileProgram (m_program w this) options_string (refs w) in
  let w := World (objects w) counts (driver_calls w) in
  if negb (ret =? CL_SUCCESS)%Z then (Throw (Build_opencl_error ret), w)
  else (Return tt, w).

(** [static program link(const std::vector<program> &programs,
    const context &context, const std::string &options = std::string())];
    [&programs[0]] is the array of the wrapped handles. *)
Definition link (ret : addr) (programs : list addr) (ctx : context)
    (options : string) (w : world) : result unit * world :=
  let options_string := if String.eqb options EmptyString then None else Some options in
  let '(program_, ret_, counts) :=
    clLinkProgram (m_context ctx) options_string (m_program w <$> programs) (refs w) in
  let w := World (objects w) counts (driver_calls w) in
  if program_ =? 0 then (Throw (Build_opencl_error ret_), w)
  else (Return tt, program_ctor ret program_ false w).

(** [static program create_with_builtin_kernels(const context &context,
    const std::vector<device> &devices, const std::string &kernel_names)];
    [&devices[0]] is the array of the device ids. *)
Definition create_with_builtin_kernels (ret : addr) (ctx : context)
    (devices : list cl_device_id) (kernel_names : string) (w : world) :
    result unit * world :=
  let '(program_, error, counts) :=
    clCreateProgramWithBuiltInKernels (m_context ctx) devices kernel_names (refs w) in
  let w := World (objects w) counts (driver_calls w) in
  if program_ =? 0 then (Throw (Build_opencl_error error), w)
  else (Return tt, program_ctor ret program_ false w).

(** [static program create_with_source_file(const std::string &file,
    const context &context)]: a stream that failed to open yields no
    character. *)
Definition create_with_source_file (ret : addr) (file : string) (ctx : context)
    (w : world) : result unit * world :=
  let source := default EmptyString (source_files !! file) in
  create_with_source clCreateProgramWithSource ret source ctx w.

(** [static program build_with_source(const std::string &source,
    const context &context, const std::string &options = std::string())],
    as compiled without BOOST_COMPUTE_USE_OFFLINE_CACHE.  The local [prog]
    is destroyed when [build] throws. *)
Definition build_with_source (how : return_by) (ret local : addr)
    (source : string) (ctx : context) (options : string) (w : world) :
    result unit * world :=
  let source_string := source in
  let '(program_, error, counts) :=
    clCreateProgramWithSource (m_context ctx) [source_string] (refs w) in
  let w := World (objects w) counts (driver_calls w) in
  if program_ =? 0 then (Throw (Build_opencl_error error), w)
  else
    let prog := local_at how ret local in
    let w := program_ctor prog program_ false w in
    match build clBuildProgram prog options w with
    | (Throw e, w) => (Throw e, program_dtor prog w)
    | (Return _, w) => (Return tt, hand_over how ret prog w)
    end.

(** [std::vector<unsigned char> binary() const]: a vector of [binary_size]
    zeros, over which the driver writes the binary. *)
Definition binary (this : addr) (w : world) : result (list N) :=
  match get_info clGetProgramInfo T_size_t this CL_PROGRAM_BINARY_SIZES w with
  | Throw e => Throw e
  | Return binary_size =>
      let binary := replicate (N.to_nat binary_size) 0 in
      let '(error, written) := clGetProgramBinaries (m_program w this) in
      let binary := take (length binary) written ++ drop (length written) binary in
      if negb (error =? CL_SUCCESS)%Z then Throw (Build_opencl_error error)
      else Return binary
  end.

End MoreDriver.

(** *** Sequences with programs that take over a reference *)

(** A lifetime operation, or [program(program, false)] as the creation
    functions use it. *)
Inductive step :=
| adopting (this : addr) (program : cl_program)
| plain (o : op).

Definition valid_step (s : step) (w : world) : bool :=
  match s with
  | adopting this _ => negb (live w this)
  | plain o => valid o w
  end.

Definition run_step (s : step) (w : world) : world :=
  match s with
  | adopting this program => program_ctor this program false w
  | plain o => run_op o w
  end.

Fixpoint run_steps (steps : list step) (w : world) : option world :=
  match steps with
  | [] => Some w
  | s :: steps' => if valid_step s w then run_steps steps' (run_step s w) else None
  end.

(** How many of the steps take over a reference to [h]. *)
Fixpoint adoptions (h : cl_program) (steps : list step) : nat :=
  match steps with
  | [] => 0%nat
  | adopting _ program :: steps' =>
      ((if (program =? h)%N then 1 else 0) + adoptions h steps')%nat
  | plain _ :: steps' => adoptions h steps'
  end.

(** *** The offline cache (BOOST_COMPUTE_USE_OFFLINE_CACHE) *)

(** What a function of the cache throws: an [opencl_error],
    [std::out_of_range] from [substr], or a [filesystem_error]. *)
Inductive exception :=
| opencl (e : opencl_error)
| out_of_range
| filesystem_error.

(** A call returns, throws, or does what C++ leaves undefined. *)
Inductive outcome (A : Type) :=
| Normal (a : A)
| Raise (x : exception)
| Undefined.
Arguments Normal {A} a.
Arguments Raise {A} x.
Arguments Undefined {A}.

(** [std::string::substr(pos, n)], [n] absent for [npos]: it throws when
    [pos] is beyond the end, and stops at the end. *)
Definition substr (s : string) (pos : nat) (n : option nat) : option string :=
  if (String.length s <? pos)%nat then None
  else Some (substring pos (default (String.length s) n) s).

Section OfflineCache.

Variable clCreateProgramWithBinary :
  cl_context → list cl_device_id → list (list N) → gmap cl_program nat →
  (cl_program * cl_int * cl_int) * gmap cl_program nat.
Variable clGetProgramInfo :
  ∀ T : info_type, cl_program → cl_program_info → result (value_of T).
Variable clGetProgramBinaries : cl_program → cl_int * list N.
Variable get_device_id : context → cl_device_id.
(** Compiled for Windows or not. *)
Variable WIN32 : bool.
(** [detail::getenv] (detail/getenv.hpp). *)
Variable getenv : string → string.
(** [boost::filesystem::path("/").make_preferred().string()] *)
Variable delim : string.
(** [boost::filesystem::create_directories(dir)]: [false] when it throws. *)
Variable create_directories : string → bool.
(** Whether [std::ofstream] can open the file. *)
Variable can_write : string → bool.
(** The bytes of a [size_t] in memory, the value such bytes stand for, and
    their number [sizeof(size_t)]. *)
Variable size_t_bytes : N → list N.
Variable size_t_value : list N → N.
Variable sizeof_size_t : nat.

(** [static const std::string& path_delim()] *)
Definition path_delim : string := delim.

(** [static inline const std::string& appdata_path()] *)
Definition appdata_path : string :=
  if WIN32 then getenv "APPDATA" +:+ path_delim +:+ "boost_compute"
  else getenv "HOME" +:+ path_delim +:+ ".boost_compute".

(** [static std::string program_binary_path(const std::string &hash,
    bool create = false)] *)
Definition program_binary_path (hash : string) (create : bool) : outcome string :=
  match substr hash 0 (Some 2%nat), substr hash 2 None with
  | Some first, Some rest =>
      let dir := appdata_path +:+ path_delim +:+ first +:+ path_delim +:+ rest in
      if create && negb (create_directories dir) then Raise filesystem_error
      else Normal (dir +:+ path_delim)
  | _, _ => Raise out_of_range
  end.

(** [static void save_program_binary(const std::string &hash,
    const program &prog)]; the files are those with their bytes. *)
Definition save_program_binary (hash : string) (prog : addr)
    (files : gmap string (list N)) (w : world) :
    outcome unit * gmap string (list N) :=
  match program_binary_path hash true with
  | Raise x => (Raise x, files)
  | Undefined => (Undefined, files)
  | Normal path =>
      let fname := path +:+ "kernel" in
      if negb (can_write fname) then (Normal tt, files)
      else
        let files := <[fname := []]> files in
        match binary clGetProgramInfo clGetProgramBinaries prog w with
        | Throw e => (Raise (opencl e), files)
        | Return binary =>
            let binary_size := N.of_nat (length binary) in
            (Normal tt, <[fname := size_t_bytes binary_size ++ binary]> files)
        end
  end.

(** [static boost::optional<program> load_program_binary(
    const std::string &hash, const context &ctx)]: the optional holds the
    object at [ret] when it holds one; the program that
    [create_with_binary] returns is a temporary at [temp].  A file shorter
    than a [size_t] leaves [binary_size] uninitialised, and its use is
    undefined; a file shorter than the size it states leaves the rest of
    the vector zero. *)
Definition load_program_binary (how : return_by) (ret temp : addr)
    (hash : string) (ctx : context) (files : gmap string (list N))
    (w : world) : outcome bool * world :=
  match program_binary_path hash false with
  | Raise x => (Raise x, w)
  | Undefined => (Undefined, w)
  | Normal path =>
      let fname := path +:+ "kernel" in
      match files !! fname with
      | None => (Normal false, w)
      | Some bytes =>
          if (length bytes <? sizeof_size_t)%nat then (Undefined, w) else
          let binary_size := size_t_value (take sizeof_size_t bytes) in
          let binary := resize (N.to_nat binary_size) 0 (drop sizeof_size_t bytes) in
          match create_with_binary clCreateProgramWithBinary get_device_id
                  (local_at how ret temp) binary ctx w with
          | (Throw e, w) => (Raise (opencl e), w)
          | (Return _, w) => (Normal true, hand_over how ret (local_at how ret temp) w)
          end
      end
  end.

End OfflineCache.

(** A [size_t] of eight bytes, least significant first. *)
Fixpoint le_bytes (n : nat) (v : N) : list N :=
  match n with
  | O => []
  | S n' => v mod 256 :: le_bytes n' (v / 256)
  end.

Fixpoint le_value (bytes : list N) : N :=
  match bytes with
  | [] => 0
  | b :: bytes' => b + 256 * le_value bytes'
  end.

(** A driver that hands out the handle 5 for any source, and one that hands
    out the handle 6 and reports the binary as invalid for the device. *)
Definition source_driver (_ : cl_context) (_ : list string)
    (counts : gmap cl_program nat) : (cl_program * cl_int) * gmap cl_program nat :=
  ((5, 0%Z), <[5 := 1%nat]> counts).
Definition binary_driver (_ : cl_context) (_ : list cl_device_id)
    (_ : list (list N)) (counts : gmap cl_program nat) :
    (cl_program * cl_int * cl_int) * gmap cl_program nat :=
  ((6, (-42)%Z, 0%Z), <[6 := 1%nat]> counts).

(** Further drivers to run the functions on: a build that fails with
    CL_BUILD_PROGRAM_FAILURE, a link that fails with CL_LINK_PROGRAM_FAILURE,
    a program of three bytes. *)
Definition failing_build (_ : cl_program) (_ : option string)
    (counts : gmap cl_program nat) : cl_int * gmap cl_program nat :=
  ((-11)%Z, counts).
Definition failing_link (_ : cl_context) (_ : option string)
    (_ : list cl_program) (counts : gmap cl_program nat) :
    (cl_program * cl_int) * gmap cl_program nat :=
  ((0, (-17)%Z), counts).
Definition builtin_driver (_ : cl_context) (_ : list cl_device_id) (_ : string)
    (counts : gmap cl_program nat) : (cl_program * cl_int) * gmap cl_program nat :=
  ((8, 0%Z), <[8 := 1%nat]> counts).
Definition info_driver (T : info_type) (_ : cl_program) (_ : cl_program_info) :
    result (value_of T) :=
  match T return result (value_of T) with
  | T_string => Return "kernel"%string
  | T_cl_context => Return 9
  | T_cl_uint => Return 1
  | T_size_t => Return 3
  end.
Definition binaries_driver (_ : cl_program) : cl_int * list N :=
  (0%Z, [1; 2; 3]).

End Program.

(** ** type_traits/is_vector_type.hpp *)

Module TypeTraits.

(** The scalar types of OpenCL and the vector types built from them
    ([float4_] is [vector_ float_ n4]). *)
Inductive scalar :=
| char_ | uchar_ | short_ | ushort_ | int_ | uint_ | long_ | ulong_
| float_ | double_.

Inductive width := n2 | n4 | n8 | n16.

Inductive type :=
| scalar_ (s : scalar)
| vector_ (s : scalar) (n : width).

Definition components (n : width) : N :=
  match n with n2 => 2 | n4 => 4 | n8 => 8 | n16 => 16 end.

(** Modelled from the spec: [vector_size<T>::value]
    (type_traits/vector_size.hpp is absent): the number of components of
    [T], one for a scalar. *)
Definition vector_size (t : type) : N :=
  match t with
  | scalar_ _ => 1
  | vector_ _ n => components n
  end.

Section IsVectorType.
Context {T : Type}.
(** [vector_size<T>::value], whichever way the trait is defined. *)
Variable vector_size_value : T → N.

(** [BOOST_STATIC_CONSTANT(bool, value = (vector_size<T>::value != 1));] *)
Definition is_vector_type (t : T) : bool :=
  negb (vector_size_value t =? 1).

End IsVectorType.

End TypeTraits.

(** * Properties of stable_sort *)

Section ListFacts.
Context {A : Type}.
Implicit Types (l : list A) (R : relation A).

Lemma StronglySorted_rev R l :
  StronglySorted R l → StronglySorted (flip R) (rev l).
Proof.
  induction 1 as [|x l Hl IH Hx]; simpl; [constructor|].
  apply StronglySorted_app. split_and!; [|done|repeat constructor].
  intros y z Hy Hz. apply list_elem_of_singleton in Hz as ->.
  rewrite Forall_forall in Hx. apply Hx.
  by apply list_elem_of_In, in_rev, list_elem_of_In.
Qed.

Lemma StronglySorted_filter_impl R R' (P : A → Prop) `{∀ x, Decision (P x)} l :
  (∀ x y, P x → P y → R x y → R' x y) →
  StronglySorted R l → StronglySorted R' (filter P l).
Proof.
  intros HR. induction 1 as [|x l Hl IH Hx]; [constructor|].
  rewrite filter_cons. destruct (decide (P x)) as [HP|HP]; [|done].
  constructor; [done|].
  rewrite Forall_forall in Hx |- *.
  intros y [Hy ?]%list_elem_of_filter. auto.
Qed.

Lemma StronglySorted_impl_elem R R' l :
  (∀ x y, x ∈ l → y ∈ l → R x y → R' x y) →
  StronglySorted R l → StronglySorted R' l.
Proof.
  intros HR Hl. induction Hl as [|x l Hl IH Hx]; [constructor|].
  constructor.
  - apply IH. intros ????; apply HR; by constructor.
  - rewrite Forall_forall in Hx |- *. intros y Hy.
    apply HR; [by left|by right|auto].
Qed.

Lemma filter_filter_sub (P Q : A → Prop)
    `{∀ x, Decision (P x)} `{∀ x, Decision (Q x)} l :
  (∀ x, P x → Q x) → filter P (filter Q l) = filter P l.
Proof.
  intros HPQ. induction l as [|x l IH]; [done|].
  rewrite !filter_cons.
  destruct (decide (Q x)), (decide (P x));
    rewrite ?filter_cons_True, ?filter_cons_False by done;
    rewrite ?IH; try done.
  exfalso; auto.
Qed.

Lemma filter_filter_none (P Q : A → Prop)
    `{∀ x, Decision (P x)} `{∀ x, Decision (Q x)} l :
  (∀ x, P x → ¬ Q x) → filter P (filter Q l) = [].
Proof.
  intros HPQ. induction l as [|x l IH]; [done|].
  rewrite filter_cons. destruct (decide (Q x)); [|done].
  rewrite filter_cons. destruct (decide (P x)); [|done].
  exfalso. by eapply HPQ.
Qed.

Lemma filter_ext_elem (P Q : A → Prop)
    `{∀ x, Decision (P x)} `{∀ x, Decision (Q x)} l :
  (∀ x, x ∈ l → (P x ↔ Q x)) → filter P l = filter Q l.
Proof.
  induction l as [|x l IH]; [done|]. intros HPQ.
  rewrite !filter_cons, IH by (intros; apply HPQ; by right).
  specialize (HPQ x (list_elem_of_here _ _)).
  destruct (decide (P x)), (decide (Q x)); try done; exfalso; tauto.
Qed.

Lemma filter_rev (P : A → Prop) `{∀ x, Decision (P x)} l :
  filter P (rev l) = rev (filter P l).
Proof.
  induction l as [|x l IH]; [done|]. simpl.
  rewrite filter_app, IH, filter_cons. destruct (decide (P x)).
  - by rewrite filter_cons_True by done.
  - by rewrite filter_cons_False, app_nil_r by done.
Qed.

Lemma rev_all_equal l : (∀ x y, x ∈ l → y ∈ l → x = y) → rev l = l.
Proof.
  induction l as [|x l IH]; [done|]. intros Heq. simpl.
  rewrite IH by (intros; apply Heq; by right).
  assert (Hx : ∀ y, y ∈ l → y = x) by (intros; apply Heq; [by right|by left]).
  clear IH Heq. induction l as [|y l IH]; [done|]. simpl.
  rewrite IH by (intros; apply Hx; by right).
  by rewrite (Hx y) by left.
Qed.

End ListFacts.

(** ** The insertion-sort kernel *)

Section InsertionSort.
Import StableSort.
Context {T : Type} (cmp : T → T → bool).
Hypothesis swo : strict_weak_order cmp.

Lemma swo_asym x y : cmp x y = true → cmp y x = false.
Proof.
  intros Hxy. destruct (cmp y x) eqn:Hyx; [|done].
  rewrite <-(swo_irrefl _ swo x). symmetry. by eapply swo_trans.
Qed.

Lemma swo_neg_trans x y z :
  cmp x y = false → cmp y z = false → cmp x z = false.
Proof.
  intros Hxy Hyz. destruct (cmp x z) eqn:Hxz; [|done].
  assert (Hyx : cmp y x = false).
  { destruct (cmp y x) eqn:E; [|done].
    rewrite <-Hyz. symmetry. by eapply swo_trans. }
  assert (Hzy : cmp z y = false).
  { destruct (cmp z y) eqn:E; [|done].
    rewrite <-Hxy. symmetry. by eapply swo_trans. }
  assert (Heq : equivalent cmp x z = true).
  { eapply (swo_equiv_trans _ swo x y z); unfold equivalent.
    - by rewrite Hxy, Hyx.
    - by rewrite Hyz, Hzy. }
  unfold equivalent in Heq. by rewrite Hxz in Heq.
Qed.

Lemma equivalent_sym x y : equivalent cmp x y = equivalent cmp y x.
Proof. unfold equivalent. apply andb_comm. Qed.

Lemma insert_value_perm value prefix :
  insert_value cmp value prefix ≡ₚ value :: prefix.
Proof.
  induction prefix as [|y prefix IH]; simpl; [done|].
  destruct (cmp value y); [|done].
  rewrite IH. apply perm_swap.
Qed.

Lemma insert_value_sorted value prefix :
  StronglySorted (λ a b, cmp a b = false) prefix →
  StronglySorted (λ a b, cmp a b = false) (insert_value cmp value prefix).
Proof.
  induction 1 as [|y prefix Hs IH Hy]; simpl; [repeat constructor|].
  destruct (cmp value y) eqn:Hvy.
  - constructor; [done|].
    rewrite insert_value_perm. constructor; [|done].
    by apply swo_asym.
  - constructor; [by constructor|]. constructor; [done|].
    eapply Forall_impl; [exact Hy|]. simpl. intros z Hyz.
    by eapply swo_neg_trans.
Qed.

Lemma insert_value_filter c value prefix :
  filter (λ x, equivalent cmp c x = true) (insert_value cmp value prefix) =
  filter (λ x, equivalent cmp c x = true) (value :: prefix).
Proof.
  induction prefix as [|y prefix IH]; simpl; [done|].
  destruct (cmp value y) eqn:Hvy; [|done].
  rewrite (filter_cons _ y), IH, !filter_cons.
  destruct (decide (equivalent cmp c y = true)) as [Hy|Hy],
    (decide (equivalent cmp c value = true)) as [Hv|Hv]; try done.
  exfalso.
  assert (Heq : equivalent cmp value y = true).
  { eapply (swo_equiv_trans _ swo); [|exact Hy]. by rewrite equivalent_sym. }
  unfold equivalent in Heq. by rewrite Hvy in Heq.
Qed.

Lemma insert_all_spec l prefix :
  let prefix' := fold_left (λ prefix value, insert_value cmp value prefix) l prefix in
  (StronglySorted (λ a b, cmp a b = false) prefix →
   StronglySorted (λ a b, cmp a b = false) prefix') ∧
  prefix' ≡ₚ rev l ++ prefix ∧
  ∀ c, filter (λ x, equivalent cmp c x = true) prefix' =
       filter (λ x, equivalent cmp c x = true) (rev l ++ prefix).
Proof.
  revert prefix. induction l as [|value l IH]; intros prefix; simpl.
  { by split_and!. }
  destruct (IH (insert_value cmp value prefix)) as (IHs & IHp & IHf).
  split_and!.
  - intros Hs. by apply IHs, insert_value_sorted.
  - rewrite IHp, insert_value_perm, <-app_assoc. done.
  - intros c. rewrite IHf, <-app_assoc. simpl.
    by rewrite !filter_app, insert_value_filter.
Qed.

Lemma insertion_sort_sorted l : sorted_by cmp (insertion_sort cmp l).
Proof.
  unfold sorted_by, insertion_sort.
  destruct (insert_all_spec l []) as (Hs & _ & _).
  apply (StronglySorted_rev (λ a b, cmp a b = false)), Hs. constructor.
Qed.

Lemma insertion_sort_perm l : insertion_sort cmp l ≡ₚ l.
Proof.
  unfold insertion_sort.
  destruct (insert_all_spec l []) as (_ & Hp & _).
  rewrite <-Permutation_rev, Hp, app_nil_r. symmetry. apply Permutation_rev.
Qed.

Lemma insertion_sort_stable l : order_preserved cmp l (insertion_sort cmp l).
Proof.
  intros c. unfold insertion_sort.
  destruct (insert_all_spec l []) as (_ & _ & Hf).
  rewrite filter_rev, Hf, app_nil_r, filter_rev. apply rev_involutive.
Qed.

End InsertionSort.

(** ** The radix sort *)

Section RadixSort.
Import StableSort.
Context {T : Type}.
Variable radix_key : T → N.

Abbreviation low := (low_key radix_key).
Abbreviation digit := (radix_digit radix_key).
Abbreviation pass := (radix_pass radix_key).
Abbreviation passes := (radix_passes radix_key).

Lemma low_key_lt k x : low k x < 2 ^ N.of_nat k.
Proof. apply N.mod_lt, N.pow_nonzero. lia. Qed.

Lemma low_key_S k x :
  low (S k) x = low k x + (if digit k x then 2 ^ N.of_nat k else 0).
Proof.
  unfold low_key, radix_digit.
  rewrite Nat2N.inj_succ, N.pow_succ_r', (N.mul_comm 2), N.Div0.mod_mul_r.
  rewrite N.testbit_eqb.
  assert (Hlt : (radix_key x / 2 ^ N.of_nat k) mod 2 < 2) by (apply N.mod_lt; lia).
  destruct (N.eqb_spec ((radix_key x / 2 ^ N.of_nat k) mod 2) 1) as [->|Hne];
    [lia|].
  assert (E : (radix_key x / 2 ^ N.of_nat k) mod 2 = 0).
  { generalize dependent ((radix_key x / 2 ^ N.of_nat k) mod 2). intros; lia. }
  rewrite E. lia.
Qed.

Lemma low_key_0 x : low 0 x = 0.
Proof. unfold low_key. simpl. apply N.mod_1_r. Qed.

Lemma low_key_S_inv k x c :
  low (S k) x = c →
  digit k x = (2 ^ N.of_nat k <=? c) ∧
  low k x = (if 2 ^ N.of_nat k <=? c then c - 2 ^ N.of_nat k else c).
Proof.
  intros <-. rewrite low_key_S. pose proof (low_key_lt k x).
  destruct (digit k x);
    destruct (N.leb_spec (2 ^ N.of_nat k) (low k x + 2 ^ N.of_nat k));
    destruct (N.leb_spec (2 ^ N.of_nat k) (low k x + 0)); split; lia.
Qed.

Lemma radix_pass_perm k l : pass k l ≡ₚ l.
Proof.
  unfold radix_pass. induction l as [|x l IH]; [done|].
  rewrite !filter_cons.
  destruct (decide (digit k x = false)) as [E|E],
    (decide (digit k x = true)) as [E'|E']; try congruence.
  - simpl. by rewrite IH.
  - rewrite <-Permutation_middle. by rewrite IH.
  - by destruct (digit k x).
Qed.

Lemma radix_pass_sorted k l :
  StronglySorted (λ a b, low k a ≤ low k b) l →
  StronglySorted (λ a b, low (S k) a ≤ low (S k) b) (pass k l).
Proof.
  intros Hl. unfold radix_pass. apply StronglySorted_app. split_and!.
  - intros x y [Hx _]%list_elem_of_filter [Hy _]%list_elem_of_filter.
    rewrite !low_key_S, Hx, Hy.
    pose proof (low_key_lt k x). lia.
  - eapply StronglySorted_filter_impl; [|exact Hl].
    intros x y Hx Hy. simpl in *. rewrite !low_key_S, Hx, Hy. lia.
  - eapply StronglySorted_filter_impl; [|exact Hl].
    intros x y Hx Hy. simpl in *. rewrite !low_key_S, Hx, Hy. lia.
Qed.

Lemma radix_pass_stable k l0 l :
  (∀ c, filter (λ x, low k x = c) l = filter (λ x, low k x = c) l0) →
  ∀ c, filter (λ x, low (S k) x = c) (pass k l) =
       filter (λ x, low (S k) x = c) l0.
Proof.
  intros Hl c.
  assert (Hpass : filter (λ x, low (S k) x = c) (pass k l) =
                  filter (λ x, low (S k) x = c) l).
  { unfold radix_pass. rewrite filter_app.
    destruct (2 ^ N.of_nat k <=? c) eqn:Hb.
    - rewrite filter_filter_none, filter_filter_sub; [done|..].
      + intros x [Hd _]%low_key_S_inv. congruence.
      + intros x [Hd _]%low_key_S_inv. congruence.
    - rewrite filter_filter_sub, filter_filter_none; [by rewrite app_nil_r|..].
      + intros x [Hd _]%low_key_S_inv. congruence.
      + intros x [Hd _]%low_key_S_inv. congruence. }
  rewrite Hpass.
  set (c' := if 2 ^ N.of_nat k <=? c then c - 2 ^ N.of_nat k else c).
  rewrite <-(filter_filter_sub _ (λ x, low k x = c') l),
          <-(filter_filter_sub _ (λ x, low k x = c') l0), Hl; [done|..];
    by intros x [_ ?]%low_key_S_inv.
Qed.

Lemma radix_passes_spec n k l0 l :
  StronglySorted (λ a b, low k a ≤ low k b) l →
  (∀ c, filter (λ x, low k x = c) l = filter (λ x, low k x = c) l0) →
  StronglySorted (λ a b, low (k + n) a ≤ low (k + n) b) (passes k n l) ∧
  ∀ c, filter (λ x, low (k + n) x = c) (passes k n l) =
       filter (λ x, low (k + n) x = c) l0.
Proof.
  revert k l. induction n as [|n IH]; intros k l Hs Hf; simpl.
  { by rewrite Nat.add_0_r. }
  replace (k + S n)%nat with (S k + n)%nat by lia.
  apply IH; [by apply radix_pass_sorted|by apply radix_pass_stable].
Qed.

Lemma radix_passes_perm n k l : passes k n l ≡ₚ l.
Proof.
  revert k l. induction n as [|n IH]; intros k l; simpl; [done|].
  by rewrite IH, radix_pass_perm.
Qed.

(** After a pass for every digit of the width the range is in ascending
    order of the keys, values of one key in their first order. *)
Lemma radix_passes_sorted_stable bits l :
  Forall (λ x, radix_key x < 2 ^ N.of_nat bits) l →
  StronglySorted (λ a b, radix_key a ≤ radix_key b) (passes 0 bits l) ∧
  ∀ c, filter (λ x, radix_key x = c) (passes 0 bits l) =
       filter (λ x, radix_key x = c) l.
Proof.
  intros Hrange. rewrite Forall_forall in Hrange.
  assert (Hlow : ∀ x, x ∈ l → low bits x = radix_key x).
  { intros x Hx. apply N.mod_small. auto. }
  assert (Hlow' : ∀ x, x ∈ passes 0 bits l → low bits x = radix_key x).
  { intros x Hx. apply Hlow. by rewrite <-(radix_passes_perm bits 0 l). }
  destruct (radix_passes_spec bits 0 l l) as [Hs Hf]; [|done|].
  { clear. induction l as [|x l IH]; constructor; [done|].
    apply Forall_forall. intros y _. by rewrite !low_key_0. }
  simpl in Hs, Hf. split.
  - eapply StronglySorted_impl_elem; [|exact Hs].
    intros x y Hx Hy. simpl. by rewrite !Hlow'.
  - intros c.
    rewrite <-(filter_ext_elem (λ x, low bits x = c) _ (passes 0 bits l)),
            <-(filter_ext_elem (λ x, low bits x = c) _ l); [done|..].
    + intros x Hx. by rewrite Hlow.
    + intros x Hx. by rewrite Hlow'.
Qed.

End RadixSort.

(** ** Sorted and stable arrangements are unique *)

Section StableUnique.
Import StableSort.
Context {T : Type} (cmp : T → T → bool).
Hypothesis swo : strict_weak_order cmp.

Lemma equivalent_refl x : equivalent cmp x x = true.
Proof. unfold equivalent. by rewrite (swo_irrefl _ swo). Qed.

(** Two arrangements that are both sorted and hold, for every value, the
    values equal to it in the same order, are the same arrangement. *)
Lemma stable_sorted_unique l1 l2 :
  sorted_by cmp l1 → sorted_by cmp l2 →
  (∀ c, filter (λ x, equivalent cmp c x = true) l1 =
        filter (λ x, equivalent cmp c x = true) l2) →
  l1 = l2.
Proof.
  intros Hs1. revert l2. induction Hs1 as [|x1 l1 Hs1 IH Hx1]; intros l2 Hs2 Hf.
  { destruct l2 as [|x2 l2]; [done|].
    specialize (Hf x2). rewrite filter_cons_True in Hf by apply equivalent_refl.
    done. }
  destruct Hs2 as [|x2 l2 Hs2 Hx2].
  { specialize (Hf x1). rewrite filter_cons_True in Hf by apply equivalent_refl.
    done. }
  rewrite Forall_forall in Hx1, Hx2.
  assert (H12 : cmp x1 x2 = false).
  { assert (Hin : x1 ∈ x2 :: l2).
    { pose proof (Hf x1) as Hf1.
      rewrite filter_cons_True in Hf1 by apply equivalent_refl.
      eapply (proj1 (list_elem_of_filter _ _ _)). rewrite <-Hf1. by left. }
    apply elem_of_cons in Hin as [->|Hin]; [apply (swo_irrefl _ swo)|auto]. }
  assert (H21 : cmp x2 x1 = false).
  { assert (Hin : x2 ∈ x1 :: l1).
    { pose proof (Hf x2) as Hf2.
      rewrite (filter_cons_True _ x2 l2) in Hf2 by apply equivalent_refl.
      eapply (proj1 (list_elem_of_filter _ _ _)). rewrite Hf2. by left. }
    apply elem_of_cons in Hin as [->|Hin]; [apply (swo_irrefl _ swo)|auto]. }
  assert (x1 = x2) as <-.
  { pose proof (Hf x1) as Hf1.
    rewrite !filter_cons_True in Hf1; [congruence|..].
    - unfold equivalent. by rewrite H12, H21.
    - apply equivalent_refl. }
  f_equal. apply IH; [done|]. intros c. specialize (Hf c).
  rewrite !filter_cons in Hf.
  destruct (decide (equivalent cmp c x1 = true)); congruence.
Qed.

End StableUnique.

(** ** The dispatch *)

Section StableSortSpec.
Import StableSort.
Context {T : Type}.
Variable op_lt : T → T → bool.
Variable is_radix_sortable : bool.
Variable radix_key : T → N.
Variable radix_bits : nat.

Abbreviation cmp_of := (apply op_lt).
Abbreviation ordered := (radix_ascending op_lt is_radix_sortable radix_key).
Abbreviation exact := (radix_exact op_lt is_radix_sortable radix_key).
Abbreviation fits := (in_range is_radix_sortable radix_key radix_bits).
Abbreviation ascending := (radix_passes radix_key 0 radix_bits).
Abbreviation dispatch :=
  (dispatch_stable_sort op_lt is_radix_sortable radix_key radix_bits).
Abbreviation sort := (stable_sort op_lt is_radix_sortable radix_key radix_bits).

Lemma keyed_equivalent (c : compare T) a b :
  (∀ x y, op_lt x y = (radix_key x <? radix_key y)) →
  c = less ∨ c = greater →
  equivalent (cmp_of c) a b = true ↔ radix_key b = radix_key a.
Proof.
  intros Hlt Hc. unfold equivalent.
  rewrite andb_true_iff, !negb_true_iff.
  destruct Hc as [-> | ->]; simpl; rewrite !Hlt, !N.ltb_ge; lia.
Qed.

Lemma keyed_strict_weak_order (c : compare T) :
  (∀ x y, op_lt x y = (radix_key x <? radix_key y)) →
  c = less ∨ c = greater →
  strict_weak_order (cmp_of c).
Proof.
  intros Hlt Hc. split.
  - intros x. destruct Hc as [-> | ->]; simpl; rewrite Hlt; apply N.ltb_irrefl.
  - intros x y z.
    destruct Hc as [-> | ->]; simpl; rewrite !Hlt, !N.ltb_lt; lia.
  - intros x y z. rewrite !keyed_equivalent by done. congruence.
Qed.

Lemma exact_ordered : exact → ordered.
Proof. intros Hexact Hradix x y. rewrite (Hexact Hradix). apply N.ltb_lt. Qed.

Lemma exact_class (c : compare T) x (l : list T) :
  (∀ x y, op_lt x y = (radix_key x <? radix_key y)) →
  c = less ∨ c = greater →
  filter (λ y, equivalent (cmp_of c) x y = true) l =
  filter (λ y, radix_key y = radix_key x) l.
Proof. intros Hlt Hc. apply list_filter_iff. intros y. by apply keyed_equivalent. Qed.

(** The ascending radix sort leaves the range sorted for [less<T>], and its
    reverse sorted for [greater<T>]. *)
Lemma radix_sorted l :
  ordered → is_radix_sortable = true → fits l →
  sorted_by (cmp_of less) (ascending l) ∧
  sorted_by (cmp_of greater) (rev (ascending l)).
Proof.
  intros Hordered Hradix Hfits.
  destruct (radix_passes_sorted_stable radix_key radix_bits l (Hfits Hradix))
    as [Hs _].
  assert (Hle : ∀ x y, radix_key x ≤ radix_key y → op_lt y x = false).
  { intros x y Hxy. destruct (op_lt y x) eqn:E; [|done].
    apply (Hordered Hradix) in E. lia. }
  split.
  - eapply StronglySorted_impl_elem; [|exact Hs]. intros x y _ _. apply Hle.
  - apply StronglySorted_rev in Hs.
    eapply StronglySorted_impl_elem; [|exact Hs]. intros x y _ _. apply Hle.
Qed.

(** Values of one key keep their order in the ascending radix sort, and
    stand in the reverse of it after the reversal. *)
Lemma radix_keys l k :
  is_radix_sortable = true → fits l →
  filter (λ x, radix_key x = k) (ascending l) = filter (λ x, radix_key x = k) l ∧
  filter (λ x, radix_key x = k) (rev (ascending l)) =
    rev (filter (λ x, radix_key x = k) l).
Proof.
  intros Hradix Hfits.
  destruct (radix_passes_sorted_stable radix_key radix_bits l (Hfits Hradix))
    as [_ Hf].
  split; [apply Hf|]. by rewrite filter_rev, Hf.
Qed.



(** C2: a call enqueues the radix sort when the iterators are buffer
    iterators over a radix-sortable type and the comparator is [less<T>] or
    [greater<T>], followed by the reversal for [greater<T>], and enqueues
    the serial insertion sort in every other case; nothing else is
    enqueued. *)
Theorem stable_sort_dispatch (first_last : iterator) (c : compare T)
    (queue : device T) :
  (radix_case is_radix_sortable first_last c = true ↔
   first_last = buffer_iterator ∧ is_radix_sortable = true ∧
   (c = less ∨ c = greater)) ∧
  calls (sort first_last c queue) =
    calls queue ++
    (if radix_case is_radix_sortable first_last c then
       match c with
       | greater => [radix_sort_call; reverse_call]
       | _ => [radix_sort_call]
       end
     else [serial_insertion_sort_call]).
Proof.
  split_and!.
  - destruct first_last, c; simpl; (split; [intros ?|intros (? & ? & [?|?])]);
      auto; discriminate.
  - unfold stable_sort, dispatch_stable_sort, radix_case.
    destruct first_last, c, is_radix_sortable; simpl;
      by rewrite <-?app_assoc.
Qed.


(** C8: the overload without a comparator leaves the device as the call
    with [less<value_type>] does, the contents of the range in
    particular. *)
Theorem stable_sort_overload_less (first_last : iterator) (queue : device T) :
  stable_sort_overload op_lt is_radix_sortable radix_key radix_bits
    first_last queue = sort first_last less queue ∧
  range (stable_sort_overload op_lt is_radix_sortable radix_key radix_bits
    first_last queue) = range (sort first_last less queue).
Proof. by split. Qed.

End StableSortSpec.

(** ** The dispatch on [uchar_] values, keys of eight binary digits *)

Example stable_sort_greater_uchar :
  StableSort.stable_sort N.ltb true (λ x, x) 8
    StableSort.buffer_iterator StableSort.greater
    (StableSort.Device [3; 1; 200; 2; 1; 255; 0] []) =
  StableSort.Device [255; 200; 3; 2; 1; 1; 0]
    [StableSort.radix_sort_call; StableSort.reverse_call].
Proof. vm_compute. reflexivity. Qed.

Example stable_sort_less_uchar :
  StableSort.stable_sort_overload N.ltb true (λ x, x) 8
    StableSort.buffer_iterator
    (StableSort.Device [3; 1; 200; 2; 1; 255; 0] []) =
  StableSort.Device [0; 1; 1; 2; 3; 200; 255] [StableSort.radix_sort_call].
Proof. vm_compute. reflexivity. Qed.

(** Pairs compared on the first component: the insertion sort keeps the
    order of pairs with the same first component. *)
Example stable_sort_functor_pairs :
  StableSort.stable_sort (λ a b : N * N, a.1 <? b.1) false (λ _, 0) 0
    StableSort.other_iterator
    (StableSort.functor (λ a b : N * N, a.1 <? b.1))
    (StableSort.Device [(2, 0); (1, 1); (2, 2); (1, 3); (0, 4)] []) =
  StableSort.Device [(0, 4); (1, 1); (1, 3); (2, 0); (2, 2)]
    [StableSort.serial_insertion_sort_call].
Proof. vm_compute. reflexivity. Qed.

(** Values that compare equal and differ: the radix sort keeps them in
    order and the reversal turns them round. *)
Example stable_sort_greater_marked :
  StableSort.stable_sort StableSort.marked_lt true StableSort.marked_key 8
    StableSort.buffer_iterator StableSort.greater
    (StableSort.Device [(0, 1); (1, 5); (0, 0)] []) =
  StableSort.Device [(1, 5); (0, 0); (0, 1)]
    [StableSort.radix_sort_call; StableSort.reverse_call].
Proof. vm_compute. reflexivity. Qed.

(** With a key that tells values apart that compare equal, the radix sort
    orders them by the key, for [less<T>] too; the insertion sort keeps
    them as they stood. *)
Example stable_sort_less_signed :
  StableSort.radix_ascending StableSort.signed_lt true StableSort.signed_key ∧
  StableSort.range
    (StableSort.stable_sort StableSort.signed_lt true StableSort.signed_key 8
       StableSort.buffer_iterator StableSort.less
       (StableSort.Device [(0, true); (0, false)] [])) =
    [(0, false); (0, true)] ∧
  StableSort.range
    (StableSort.stable_sort StableSort.signed_lt true StableSort.signed_key 8
       StableSort.other_iterator StableSort.less
       (StableSort.Device [(0, true); (0, false)] [])) =
    [(0, true); (0, false)].
Proof.
  split_and!; [|reflexivity..].
  intros _ [x bx] [y by_]. unfold StableSort.signed_lt, StableSort.signed_key.
  cbn [fst snd]. rewrite N.ltb_lt. destruct bx, by_; lia.
Qed.

Lemma marked_exact (radix : bool) :
  StableSort.radix_exact StableSort.marked_lt radix StableSort.marked_key.
Proof. by intros _ x y. Qed.


Lemma marked_strict_weak_order (c : StableSort.compare (N * N)) :
  c = StableSort.less ∨ c = StableSort.greater →
  StableSort.strict_weak_order (StableSort.apply StableSort.marked_lt c).
Proof.
  by apply (keyed_strict_weak_order StableSort.marked_lt StableSort.marked_key).
Qed.





(** * Properties of program *)

Section ProgramEffects.
Import Program.
Implicit Types (w : world) (h : N) (this other : N).

Lemma m_program_set this h w : m_program (set_m_program this h w) this = h.
Proof. unfold m_program. simpl. by rewrite lookup_insert_eq. Qed.

Lemma m_program_set_ne this other h w :
  this ≠ other → m_program (set_m_program this h w) other = m_program w other.
Proof. intros. unfold m_program. simpl. by rewrite lookup_insert_ne. Qed.

Lemma m_program_release h this w :
  m_program (clReleaseProgram h w) this = m_program w this.
Proof. done. Qed.

Lemma reference_count_set this h h' w :
  reference_count (set_m_program this h w) h' = reference_count w h'.
Proof. done. Qed.

Lemma reference_count_retain h h' w :
  reference_count (clRetainProgram h w) h' =
  if h' =? h then S (reference_count w h') else reference_count w h'.
Proof.
  unfold reference_count at 1. simpl.
  destruct (N.eqb_spec h' h) as [->|Hne].
  - by rewrite lookup_insert_eq.
  - by rewrite lookup_insert_ne.
Qed.

Lemma reference_count_release h h' w :
  reference_count (clReleaseProgram h w) h' =
  if h' =? h then Nat.pred (reference_count w h') else reference_count w h'.
Proof.
  unfold reference_count at 1. simpl.
  destruct (N.eqb_spec h' h) as [->|Hne].
  - by rewrite lookup_insert_eq.
  - by rewrite lookup_insert_ne.
Qed.

Lemma program_ctor_effect this h w :
  objects (program_ctor this h true w) = <[this := h]> (objects w) ∧
  driver_calls (program_ctor this h true w) = driver_calls w ++ retain_calls h ∧
  ∀ h', reference_count (program_ctor this h true w) h' =
        retained h h' (reference_count w h').
Proof.
  unfold program_ctor, retain_calls, retained.
  rewrite m_program_set, andb_true_r.
  destruct (non_null h); simpl; split_and!; try done.
  - intros h'. by rewrite reference_count_retain.
  - by rewrite app_nil_r.
Qed.

Lemma program_copy_effect this other w :
  objects (program_copy this other w) =
    <[this := m_program w other]> (objects w) ∧
  driver_calls (program_copy this other w) =
    driver_calls w ++ retain_calls (m_program w other) ∧
  ∀ h', reference_count (program_copy this other w) h' =
        retained (m_program w other) h' (reference_count w h').
Proof.
  unfold program_copy, retain_calls, retained. rewrite m_program_set.
  destruct (non_null (m_program w other)); simpl; split_and!; try done.
  - intros h'. by rewrite reference_count_retain.
  - by rewrite app_nil_r.
Qed.

Lemma copy_assign_effect this other w :
  this ≠ other →
  objects (copy_assign this other w) =
    <[this := m_program w other]> (objects w) ∧
  driver_calls (copy_assign this other w) =
    driver_calls w ++ release_calls (m_program w this)
                   ++ retain_calls (m_program w other) ∧
  ∀ h', reference_count (copy_assign this other w) h' =
        retained (m_program w other) h'
          (released (m_program w this) h' (reference_count w h')).
Proof.
  intros Hne. unfold copy_assign, release_calls, retain_calls, retained, released.
  destruct (N.eqb_spec this other) as [?|_]; [done|]. simpl.
  rewrite !m_program_set.
  destruct (non_null (m_program w this)) eqn:Hold; simpl;
    rewrite ?m_program_release;
    destruct (non_null (m_program w other)) eqn:Hnew; simpl;
    (split_and!; [done|by rewrite ?app_nil_r, <-?app_assoc|]);
    intros h';
    by rewrite ?reference_count_retain, ?reference_count_set,
               ?reference_count_release.
Qed.

Lemma program_move_effect this other w :
  objects (program_move this other w) =
    <[other := 0]> (<[this := m_program w other]> (objects w)) ∧
  driver_calls (program_move this other w) = driver_calls w ∧
  refs (program_move this other w) = refs w.
Proof. done. Qed.

Lemma move_assign_effect this other w :
  objects (move_assign this other w) =
    <[other := 0]> (<[this := m_program w other]> (objects w)) ∧
  driver_calls (move_assign this other w) =
    driver_calls w ++ release_calls (m_program w this) ∧
  ∀ h', reference_count (move_assign this other w) h' =
        released (m_program w this) h' (reference_count w h').
Proof.
  unfold move_assign, release_calls, released.
  destruct (non_null (m_program w this)); simpl; split_and!; try done.
  - intros h'. by rewrite <-reference_count_release.
  - by rewrite app_nil_r.
Qed.

Lemma program_dtor_effect this w :
  objects (program_dtor this w) = delete this (objects w) ∧
  driver_calls (program_dtor this w) =
    driver_calls w ++ release_calls (m_program w this) ∧
  ∀ h', reference_count (program_dtor this w) h' =
        released (m_program w this) h' (reference_count w h').
Proof.
  unfold program_dtor, release_calls, released.
  destruct (non_null (m_program w this)); simpl; split_and!; try done.
  - intros h'. by rewrite <-reference_count_release.
  - by rewrite app_nil_r.
Qed.

End ProgramEffects.

Section ProgramBalance.
Import Program.
Implicit Types (w : world) (h x y old new : N) (this other : N) (m : gmap N N).

Abbreviation same a b := (if (a =? b)%N then 1%nat else 0%nat).
Abbreviation own h m :=
  (length (filter (λ p : N * N, p.2 = h) (map_to_list m))).

Ltac same_cases :=
  repeat match goal with
  | H : context [(_ =? _)%N] |- _ => revert H
  end;
  repeat match goal with
  | |- context [(?a =? ?b)%N] => destruct (N.eqb_spec a b)
  end;
  intros; subst; try done; try congruence; try lia.

Lemma own_insert_fresh m this x h :
  m !! this = None →
  own h (<[this := x]> m) = (same x h + own h m)%nat.
Proof.
  intros Hfresh. rewrite map_to_list_insert by done.
  rewrite filter_cons. simpl.
  destruct (N.eqb_spec x h), (decide (x = h)); done.
Qed.

Lemma own_delete m this x h :
  m !! this = Some x →
  own h m = (same x h + own h (delete this m))%nat.
Proof.
  intros Hlive. rewrite <-(map_to_list_delete m this x) by done.
  rewrite filter_cons. simpl.
  destruct (N.eqb_spec x h), (decide (x = h)); done.
Qed.

Lemma own_insert_live m this x y h :
  m !! this = Some y →
  (own h (<[this := x]> m) + same y h = own h m + same x h)%nat.
Proof.
  intros Hlive. rewrite <-insert_delete_eq.
  rewrite own_insert_fresh by apply lookup_delete_eq.
  rewrite (own_delete m this y h) by done. same_cases.
Qed.

Lemma m_program_live w this x : objects w !! this = Some x → m_program w this = x.
Proof. unfold m_program. by intros ->. Qed.

Lemma live_lookup w this :
  live w this = true → objects w !! this = Some (m_program w this).
Proof.
  unfold live, m_program. intros [x Hx]%bool_decide_eq_true. by rewrite Hx.
Qed.

Lemma not_live_lookup w this : live w this = false → objects w !! this = None.
Proof.
  unfold live. intros H%bool_decide_eq_false.
  destruct (objects w !! this) eqn:E; [|done]. destruct H. by eexists.
Qed.

Lemma owners_live w this : live w this = true → (1 ≤ owners (m_program w this) w)%nat.
Proof.
  intros Hlive%live_lookup. unfold owners.
  rewrite (own_delete _ _ _ _ Hlive), N.eqb_refl. lia.
Qed.

Lemma retain_calls_count h h' :
  h ≠ 0 →
  length (filter (λ c, c = Retain h) (retain_calls h')) = same h' h ∧
  length (filter (λ c, c = Release h) (retain_calls h')) = 0%nat.
Proof.
  intros Hh. unfold retain_calls, non_null.
  destruct (N.eqb_spec h' 0) as [->|Hh']; cbn [negb].
  - by destruct h.
  - destruct (N.eqb_spec h' h) as [->|Hne].
    + by rewrite filter_cons_True, filter_cons_False by done.
    + by rewrite !filter_cons_False by congruence.
Qed.

Lemma release_calls_count h h' :
  h ≠ 0 →
  length (filter (λ c, c = Release h) (release_calls h')) = same h' h ∧
  length (filter (λ c, c = Retain h) (release_calls h')) = 0%nat.
Proof.
  intros Hh. unfold release_calls, non_null.
  destruct (N.eqb_spec h' 0) as [->|Hh']; cbn [negb].
  - by destruct h.
  - destruct (N.eqb_spec h' h) as [->|Hne].
    + by rewrite filter_cons_True, filter_cons_False by done.
    + by rewrite !filter_cons_False by congruence.
Qed.

Lemma null_not_called h :
  (Retain 0 ∉ retain_calls h) ∧ (Release 0 ∉ retain_calls h) ∧
  (Retain 0 ∉ release_calls h) ∧ (Release 0 ∉ release_calls h).
Proof.
  unfold retain_calls, release_calls, non_null.
  destruct (N.eqb_spec h 0); simpl; split_and!;
    rewrite ?list_elem_of_singleton; try apply not_elem_of_nil; congruence.
Qed.

(** One operation that releases [old] and retains [new], one object ceasing
    to wrap [old] and one coming to wrap [new], keeps the balance. *)
Lemma balanced_step counts w w' old new :
  balanced counts w →
  driver_calls w' = driver_calls w ++ release_calls old ++ retain_calls new →
  (∀ h, reference_count w' h =
        retained new h (released old h (reference_count w h))) →
  (∀ h, h ≠ 0 →
     (owners h w' + same old h = owners h w + same new h)%nat) →
  (old ≠ 0 → (1 ≤ owners old w)%nat) →
  balanced counts w'.
Proof.
  intros (Hb & Hr0 & Hl0) Hcalls Hcount Hown Hold.
  destruct (null_not_called old) as (_ & _ & ? & ?).
  destruct (null_not_called new) as (? & ? & _ & _).
  split_and!.
  - intros h Hh. destruct (Hb h Hh) as [Hret Hcnt].
    specialize (Hown h Hh). unfold retains, releases in *.
    rewrite Hcalls, !filter_app, !length_app, Hcount.
    destruct (retain_calls_count h new Hh) as [-> ->].
    destruct (release_calls_count h old Hh) as [-> ->].
    unfold retained, released, non_null.
    destruct (N.eqb_spec old h) as [->|?], (N.eqb_spec new h) as [->|?];
      rewrite ?N.eqb_refl;
      repeat match goal with
      | |- context [?a =? ?b] => destruct (N.eqb_spec a b); try done
      end; simpl; lia.
  - rewrite Hcalls, !not_elem_of_app. done.
  - rewrite Hcalls, !not_elem_of_app. done.
Qed.

Lemma run_op_balanced counts o w :
  valid o w = true → balanced counts w → balanced counts (run_op o w).
Proof.
  intros Hvalid Hb. destruct o as [this h|this|this other|this other|this other|this other|this]; simpl in *.
  - (* program(h, true) *)
    apply negb_true_iff, not_live_lookup in Hvalid.
    destruct (program_ctor_effect this h w) as (Hobj & Hcalls & Hcount).
    apply (balanced_step counts w _ 0 h); try done.
    intros h' Hh'. unfold owners. rewrite Hobj, own_insert_fresh by done.
    same_cases.
  - (* program() *)
    apply negb_true_iff, not_live_lookup in Hvalid.
    apply (balanced_step counts w _ 0 0); try done.
    + simpl. by rewrite app_nil_r.
    + intros h' Hh'. unfold owners, program_default, set_m_program.
      cbn [objects]. rewrite own_insert_fresh by done. same_cases.
  - (* program(const program &) *)
    apply andb_true_iff in Hvalid as [Hthis%negb_true_iff%not_live_lookup Hother].
    destruct (program_copy_effect this other w) as (Hobj & Hcalls & Hcount).
    apply (balanced_step counts w _ 0 (m_program w other)); try done.
    intros h' Hh'. unfold owners. rewrite Hobj, own_insert_fresh by done.
    same_cases.
  - (* operator=(const program &) *)
    apply andb_true_iff in Hvalid as [Hthis Hother].
    destruct (decide (this = other)) as [->|Hne].
    { unfold copy_assign. by rewrite N.eqb_refl. }
    destruct (copy_assign_effect this other w Hne) as (Hobj & Hcalls & Hcount).
    apply (balanced_step counts w _ (m_program w this) (m_program w other));
      try done.
    + intros h' Hh'. unfold owners. rewrite Hobj.
      apply own_insert_live. by apply live_lookup.
    + intros _. by apply owners_live.
  - (* program(program &&) *)
    apply andb_true_iff in Hvalid as [Hthis%negb_true_iff%not_live_lookup Hother].
    apply live_lookup in Hother as Hother'.
    assert (this ≠ other) by congruence.
    apply (balanced_step counts w _ 0 0); try done.
    + simpl. by rewrite app_nil_r.
    + intros h' Hh'. unfold owners.
      destruct (program_move_effect this other w) as (-> & _ & _).
      pose proof (own_insert_live (<[this := m_program w other]> (objects w))
                    other 0 (m_program w other) h') as Hstep.
      rewrite lookup_insert_ne in Hstep by done. specialize (Hstep Hother').
      rewrite (own_insert_fresh (objects w) this) in Hstep by done.
      same_cases.
  - (* operator=(program &&) *)
    apply andb_true_iff in Hvalid as [Hthis Hother].
    destruct (move_assign_effect this other w) as (Hobj & Hcalls & Hcount).
    apply (balanced_step counts w _ (m_program w this) 0); try done.
    + by rewrite Hcalls, app_nil_r.
    + intros h' Hh'. unfold owners. rewrite Hobj.
      apply live_lookup in Hthis, Hother.
      destruct (decide (this = other)) as [->|Hne].
      * rewrite insert_insert_eq.
        pose proof (own_insert_live (objects w) other 0 (m_program w other) h' Hother).
        same_cases.
      * pose proof (own_insert_live (<[this := m_program w other]> (objects w))
                      other 0 (m_program w other) h') as Hstep.
        rewrite lookup_insert_ne in Hstep by done. specialize (Hstep Hother).
        pose proof (own_insert_live (objects w) this (m_program w other)
                      (m_program w this) h' Hthis).
        same_cases.
    + intros _. by apply owners_live.
  - (* ~program() *)
    destruct (program_dtor_effect this w) as (Hobj & Hcalls & Hcount).
    apply (balanced_step counts w _ (m_program w this) 0); try done.
    + by rewrite Hcalls, app_nil_r.
    + intros h' Hh'. unfold owners. rewrite Hobj.
      apply live_lookup in Hvalid.
      rewrite (own_delete (objects w) this _ h' Hvalid).
      same_cases.
    + intros _. by apply owners_live.
Qed.

Lemma initial_balanced counts : balanced counts (initial counts).
Proof.
  split_and!; simpl; try apply not_elem_of_nil.
  intros h _. unfold retains, releases, owners, reference_count. simpl.
  rewrite map_to_list_empty. simpl. split; [done|lia].
Qed.

Lemma run_balanced counts ops w w' :
  balanced counts w → run ops w = Some w' → balanced counts w'.
Proof.
  revert w. induction ops as [|o ops IH]; intros w Hb; simpl.
  - by intros [= <-].
  - destruct (valid o w) eqn:Hvalid; [|done].
    apply IH. by apply run_op_balanced.
Qed.

Lemma owners_empty h w : objects w = ∅ → owners h w = 0%nat.
Proof. unfold owners. intros ->. by rewrite map_to_list_empty. Qed.

End ProgramBalance.

Section ProgramClaims.
Import Program.
Implicit Types (w : world) (h : N) (this other : N).

Lemma not_called_count (c : cl_call) (l : list cl_call) :
  c ∉ l → length (filter (λ c', c' = c) l) = 0%nat.
Proof.
  intros Hc. induction l as [|c' l IH]; [done|].
  apply not_elem_of_cons in Hc as [Hne Hc].
  rewrite filter_cons_False by congruence. auto.
Qed.

(** C4, the statement itself, fails: with two objects that wrap the same
    handle, move assignment of one to the other changes the reference count
    of the handle it transfers. *)
Lemma move_assign_changes_count :
  m_program two_copies 1 = 7 ∧ m_program two_copies 2 = 7 ∧
  reference_count two_copies 7 = 2%nat ∧
  reference_count (move_assign 2 1 two_copies) 7 = 1%nat ∧
  reference_count (move_assign 2 1 two_copies) (m_program two_copies 1) ≠
  reference_count two_copies (m_program two_copies 1).
Proof. vm_compute. split_and!; congruence. Qed.

(** C4, as amended: the retaining constructor and copy construction retain a
    non-null handle once; copy assignment between two objects releases the
    old handle and retains the new one; move construction transfers the
    handle and nulls the source with no call to the driver; move assignment
    releases the old handle of the target once, retains nothing, nulls the
    source, and leaves the count of the transferred handle as it was when
    the target wrapped another handle or none; destruction releases a
    non-null handle once; no null handle is retained or released; and after
    any sequence of these operations every handle has been retained as often
    as it has been released and is wrapped by a live object, so as often as
    released once all objects are destroyed. *)
Theorem program_reference_counting :
  (∀ this h w,
     m_program (program_ctor this h true w) this = h ∧
     driver_calls (program_ctor this h true w) =
       driver_calls w ++ retain_calls h ∧
     ∀ h', reference_count (program_ctor this h true w) h' =
           retained h h' (reference_count w h')) ∧
  (∀ this other w,
     m_program (program_copy this other w) this = m_program w other ∧
     driver_calls (program_copy this other w) =
       driver_calls w ++ retain_calls (m_program w other) ∧
     ∀ h', reference_count (program_copy this other w) h' =
           retained (m_program w other) h' (reference_count w h')) ∧
  (∀ this other w, this ≠ other →
     m_program (copy_assign this other w) this = m_program w other ∧
     driver_calls (copy_assign this other w) =
       driver_calls w ++ release_calls (m_program w this)
                      ++ retain_calls (m_program w other) ∧
     ∀ h', reference_count (copy_assign this other w) h' =
           retained (m_program w other) h'
             (released (m_program w this) h' (reference_count w h'))) ∧
  (∀ this other w, this ≠ other →
     m_program (program_move this other w) this = m_program w other ∧
     m_program (program_move this other w) other = 0 ∧
     driver_calls (program_move this other w) = driver_calls w ∧
     refs (program_move this other w) = refs w) ∧
  (∀ this other w,
     (this ≠ other →
      m_program (move_assign this other w) this = m_program w other) ∧
     m_program (move_assign this other w) other = 0 ∧
     driver_calls (move_assign this other w) =
       driver_calls w ++ release_calls (m_program w this) ∧
     (∀ h', reference_count (move_assign this other w) h' =
            released (m_program w this) h' (reference_count w h')) ∧
     (m_program w this = 0 ∨ m_program w this ≠ m_program w other →
      reference_count (move_assign this other w) (m_program w other) =
      reference_count w (m_program w other))) ∧
  (∀ this w,
     objects (program_dtor this w) !! this = None ∧
     driver_calls (program_dtor this w) =
       driver_calls w ++ release_calls (m_program w this) ∧
     ∀ h', reference_count (program_dtor this w) h' =
           released (m_program w this) h' (reference_count w h')) ∧
  (retain_calls 0 = [] ∧ release_calls 0 = []) ∧
  (∀ counts ops w,
     run ops (initial counts) = Some w →
     balanced counts w ∧
     (objects w = ∅ → ∀ h, retains h w = releases h w)).
Proof.
  split_and!.
  - intros this h w.
    destruct (program_ctor_effect this h w) as (Hobj & Hcalls & Hcount).
    split_and!; [|done..]. unfold m_program. by rewrite Hobj, lookup_insert_eq.
  - intros this other w.
    destruct (program_copy_effect this other w) as (Hobj & Hcalls & Hcount).
    split_and!; [|done..]. unfold m_program at 1. by rewrite Hobj, lookup_insert_eq.
  - intros this other w Hne.
    destruct (copy_assign_effect this other w Hne) as (Hobj & Hcalls & Hcount).
    split_and!; [|done..]. unfold m_program at 1. by rewrite Hobj, lookup_insert_eq.
  - intros this other w Hne. unfold program_move.
    rewrite m_program_set, m_program_set_ne, m_program_set by done. done.
  - intros this other w.
    destruct (move_assign_effect this other w) as (Hobj & Hcalls & Hcount).
    split_and!; try done.
    + intros Hne. unfold m_program at 1.
      by rewrite Hobj, lookup_insert_ne, lookup_insert_eq.
    + unfold m_program at 1. by rewrite Hobj, lookup_insert_eq.
    + intros Hold. rewrite Hcount. unfold released, non_null.
      destruct (N.eqb_spec (m_program w this) 0); [done|]. simpl.
      destruct (N.eqb_spec (m_program w other) (m_program w this)); [|done].
      destruct Hold; congruence.
  - intros this w.
    destruct (program_dtor_effect this w) as (Hobj & Hcalls & Hcount).
    split_and!; [|done..]. by rewrite Hobj, lookup_delete_eq.
  - done.
  - done.
  - intros counts ops w Hrun.
    assert (Hb : balanced counts w).
    { eapply run_balanced; [apply initial_balanced|exact Hrun]. }
    split; [done|]. intros Hempty h.
    destruct Hb as (Hb & Hr0 & Hl0).
    destruct (decide (h = 0)) as [->|Hh].
    + unfold retains, releases. by rewrite !not_called_count.
    + destruct (Hb h Hh) as [-> _]. rewrite owners_empty by done. lia.
Qed.

Lemma program_reference_counting_witness :
  ∃ w,
    run [Construct 1 7; Copy 2 1; Default 3; CopyAssign 3 2; MoveAssign 2 1;
         Move 4 3; Destroy 1; Destroy 2; Destroy 3; Destroy 4]
      (initial ∅) = Some w ∧
    balanced ∅ w ∧ retains 7 w = releases 7 w ∧ retains 7 w = 3%nat.
Proof.
  eexists. split; [vm_compute; reflexivity|].
  destruct program_reference_counting as (_ & _ & _ & _ & _ & _ & _ & Hrun).
  destruct (Hrun ∅
    [Construct 1 7; Copy 2 1; Default 3; CopyAssign 3 2; MoveAssign 2 1;
     Move 4 3; Destroy 1; Destroy 2; Destroy 3; Destroy 4]
    _ eq_refl) as [Hb Hempty].
  split; [exact Hb|]. split; [apply Hempty|]; reflexivity.
Defined.

(** C10: assigning a program to itself changes nothing: the object, the
    reference counts and the calls made on the driver are as before. *)
Theorem copy_assign_self this w :
  copy_assign this this w = w ∧
  m_program (copy_assign this this w) this = m_program w this ∧
  driver_calls (copy_assign this this w) = driver_calls w ∧
  ∀ h, reference_count (copy_assign this this w) h = reference_count w h.
Proof. unfold copy_assign. by rewrite N.eqb_refl. Qed.

End ProgramClaims.

(** ** Calls forwarded to the driver *)

Section ProgramDriver.
Import Program.
Variable clBuildProgram :
  N → option string → gmap N nat → Z * gmap N nat.
Variable clCreateProgramWithSource :
  N → list string → gmap N nat → (N * Z) * gmap N nat.
Variable clCreateProgramWithBinary :
  N → list N → list (list N) → gmap N nat → (N * Z * Z) * gmap N nat.
Variable clGetProgramInfo :
  ∀ T : info_type, N → N → result (value_of T).
Variable get_device_id : context → N.

(** C5: [build] passes the handle and the options to [clBuildProgram] and
    throws an [opencl_error] with the driver's return code exactly when that
    code is not [CL_SUCCESS]; with [CL_SUCCESS] it returns normally. *)
Theorem build_throws_iff (this : N) (options : string) (w : world) :
  let options_string :=
    if String.eqb options EmptyString then None else Some options in
  let ret := (clBuildProgram (m_program w this) options_string (refs w)).1 in
  let outcome := (build clBuildProgram this options w).1 in
  ((∃ e, outcome = Throw e) ↔ ret ≠ CL_SUCCESS) ∧
  (∀ e, outcome = Throw e → e = Build_opencl_error ret) ∧
  (outcome = Return tt ↔ ret = CL_SUCCESS) ∧
  (build clBuildProgram this options w).2 =
    World (objects w)
      (clBuildProgram (m_program w this) options_string (refs w)).2
      (driver_calls w).
Proof.
  simpl. unfold build, CL_SUCCESS.
  destruct (clBuildProgram _ _ _) as [ret counts]. simpl.
  destruct (Z.eqb_spec ret 0) as [->|Hne]; simpl.
  - split_and!; [split; [by intros [e ?]|done]|done..].
  - split_and!; [split; [done|by eexists]|by intros e [= <-]|done..].
Qed.

(** C6: [create_with_source] and [create_with_binary] throw an
    [opencl_error] with the driver's error code when the driver returns the
    null handle, [create_with_binary] throws one with the binary status when
    the handle is not null and that status is not [CL_SUCCESS], and
    otherwise each returns an object wrapping the driver's handle, with no
    retain: the calls and the reference counts are as the driver left
    them. *)
Theorem create_adopts_or_throws (ret : N) (source : string) (binary : list N)
    (ctx : context) (w : world) :
  (let '(program_, error, counts) :=
     clCreateProgramWithSource (m_context ctx) [source] (refs w) in
   let out := create_with_source clCreateProgramWithSource ret source ctx w in
   (program_ = 0 →
    out.1 = Throw (Build_opencl_error error) ∧ objects out.2 = objects w) ∧
   (program_ ≠ 0 →
    out.1 = Return tt ∧ m_program out.2 ret = program_ ∧
    driver_calls out.2 = driver_calls w ∧ refs out.2 = counts)) ∧
  (let '(program_, binary_status, error, counts) :=
     clCreateProgramWithBinary (m_context ctx) [get_device_id ctx] [binary]
       (refs w) in
   let out :=
     create_with_binary clCreateProgramWithBinary get_device_id ret binary
       ctx w in
   (program_ = 0 →
    out.1 = Throw (Build_opencl_error error) ∧ objects out.2 = objects w) ∧
   (program_ ≠ 0 → binary_status ≠ CL_SUCCESS →
    out.1 = Throw (Build_opencl_error binary_status) ∧
    objects out.2 = objects w) ∧
   (program_ ≠ 0 → binary_status = CL_SUCCESS →
    out.1 = Return tt ∧ m_program out.2 ret = program_ ∧
    driver_calls out.2 = driver_calls w ∧ refs out.2 = counts)).
Proof.
  split.
  - unfold create_with_source.
    destruct (clCreateProgramWithSource _ _ _) as [[program_ error] counts].
    destruct (N.eqb_spec program_ 0) as [->|Hne]; simpl; split; try done.
    intros _. unfold program_ctor. rewrite andb_false_r.
    by rewrite m_program_set.
  - unfold create_with_binary, CL_SUCCESS.
    destruct (clCreateProgramWithBinary _ _ _ _)
      as [[[program_ binary_status] error] counts].
    destruct (N.eqb_spec program_ 0) as [->|Hne]; simpl; [by split_and!|].
    destruct (Z.eqb_spec binary_status 0) as [->|Hstatus]; simpl;
      split_and!; try done.
    intros _ _. unfold program_ctor. rewrite andb_false_r.
    by rewrite m_program_set.
Qed.

(** C7: [get_info<T>(info)] is the answer of [clGetProgramInfo] for the
    wrapped handle and [info], whether a value or an error; [source()] is
    the answer for [CL_PROGRAM_SOURCE], and [get_context()] wraps the answer
    for [CL_PROGRAM_CONTEXT] in a [context]. *)
Theorem get_info_forwards (T : info_type) (this info : N) (w : world) :
  get_info clGetProgramInfo T this info w =
    clGetProgramInfo T (m_program w this) info ∧
  source clGetProgramInfo this w =
    clGetProgramInfo T_string (m_program w this) CL_PROGRAM_SOURCE ∧
  get_context clGetProgramInfo this w =
    match clGetProgramInfo T_cl_context (m_program w this) CL_PROGRAM_CONTEXT with
    | Return c => Return (Build_context c)
    | Throw e => Throw e
    end ∧
  ∀ c, clGetProgramInfo T_cl_context (m_program w this) CL_PROGRAM_CONTEXT =
         Return c →
       ∃ ctx, get_context clGetProgramInfo this w = Return ctx ∧
              m_context ctx = c.
Proof.
  split_and!; try done.
  intros c Hc. unfold get_context, get_info, get_object_info. rewrite Hc.
  by eexists.
Qed.

End ProgramDriver.

Lemma create_adopts_or_throws_witness :
  (Program.create_with_source Program.source_driver 1 "kernel"
     (Program.Build_context 9) (Program.initial ∅)).1 = Program.Return tt ∧
  Program.m_program
    (Program.create_with_source Program.source_driver 1 "kernel"
       (Program.Build_context 9) (Program.initial ∅)).2 1 = 5 ∧
  Program.driver_calls
    (Program.create_with_source Program.source_driver 1 "kernel"
       (Program.Build_context 9) (Program.initial ∅)).2 = [] ∧
  (Program.create_with_binary Program.binary_driver (λ _, 3) 1 [0; 1]
     (Program.Build_context 9) (Program.initial ∅)).1 =
    Program.Throw (Program.Build_opencl_error (-42)).
Proof.
  pose proof (create_adopts_or_throws
    Program.source_driver Program.binary_driver
    (λ _, 3) 1 "kernel" [0; 1] (Program.Build_context 9) (Program.initial ∅))
    as [Hsource Hbinary].
  simpl in Hsource, Hbinary.
  destruct Hsource as [_ Hsource]. destruct Hbinary as (_ & Hbinary & _).
  specialize (Hsource ltac:(discriminate)).
  specialize (Hbinary ltac:(discriminate) ltac:(discriminate)).
  destruct Hsource as (H1 & H2 & H3 & _). destruct Hbinary as [H4 _].
  split_and!; assumption.
Defined.

(** * Properties of is_vector_type *)

(** C9: [is_vector_type<T>::value] is true exactly when
    [vector_size<T>::value] is not 1; [int] is no vector type, [float4_] is
    one. *)
Theorem is_vector_type_iff :
  (∀ (T : Type) (vector_size_value : T → N) (t : T),
     TypeTraits.is_vector_type vector_size_value t = true ↔
     vector_size_value t ≠ 1) ∧
  TypeTraits.is_vector_type TypeTraits.vector_size
    (TypeTraits.scalar_ TypeTraits.int_) = false ∧
  TypeTraits.is_vector_type TypeTraits.vector_size
    (TypeTraits.vector_ TypeTraits.float_ TypeTraits.n4) = true.
Proof.
  split_and!; [|done..].
  intros T vector_size_value t. unfold TypeTraits.is_vector_type.
  rewrite negb_true_iff. apply N.eqb_neq.
Qed.

(** * Further properties of stable_sort *)

Section StableSortMore.
Import StableSort.
Context {T : Type}.
Variable op_lt : T → T → bool.
Variable is_radix_sortable : bool.
Variable radix_key : T → N.
Variable radix_bits : nat.

Abbreviation cmp_of' := (apply op_lt).
Abbreviation exact' := (radix_exact op_lt is_radix_sortable radix_key).
Abbreviation fits' := (in_range is_radix_sortable radix_key radix_bits).
Abbreviation sort' := (stable_sort op_lt is_radix_sortable radix_key radix_bits).
Abbreviation stable_path first_last c :=
  (radix_case is_radix_sortable first_last c = true → c = less).

(** Off the [greater<T>] radix path the call sorts and keeps the order of
    values that compare equal. *)
Lemma sort_range_spec first_last (c : compare T) queue :
  exact' → fits' (range queue) → strict_weak_order (cmp_of' c) →
  stable_path first_last c →
  sorted_by (cmp_of' c) (range (sort' first_last c queue)) ∧
  order_preserved (cmp_of' c) (range queue) (range (sort' first_last c queue)) ∧
  range (sort' first_last c queue) ≡ₚ range queue.
Proof.
  intros Hexact Hfits Hswo Hpath.
  assert (Hrad : is_radix_sortable = true →
    sorted_by (cmp_of' less) (radix_passes radix_key 0 radix_bits (range queue)) ∧
    order_preserved (cmp_of' less) (range queue)
      (radix_passes radix_key 0 radix_bits (range queue))).
  { intros Hradix. split.
    - apply (radix_sorted op_lt is_radix_sortable); [by apply exact_ordered|done..].
    - intros x. rewrite !(exact_class op_lt radix_key less) by auto.
      by apply (radix_keys is_radix_sortable). }
  revert Hpath. unfold stable_sort, dispatch_stable_sort, radix_case.
  destruct first_last, c, is_radix_sortable; cbn [range radix_sort reverse];
    intros Hpath;
    try (split_and!;
         [by apply insertion_sort_sorted|by apply insertion_sort_stable
         |by apply insertion_sort_perm]).
  - destruct (Hrad eq_refl). split_and!; [done..|apply radix_passes_perm].
  - by specialize (Hpath eq_refl).
Qed.

Lemma sort_range_unique first_last (c : compare T) queue arranged :
  exact' → fits' (range queue) → strict_weak_order (cmp_of' c) →
  stable_path first_last c →
  sorted_by (cmp_of' c) arranged →
  order_preserved (cmp_of' c) (range queue) arranged →
  range (sort' first_last c queue) = arranged.
Proof.
  intros Hexact Hfits Hswo Hpath Hsorted Hstable.
  destruct (sort_range_spec first_last c queue) as (Hs & Hp & _); [done..|].
  apply (stable_sorted_unique _ Hswo); [done..|].
  intros x. by rewrite Hp, Hstable.
Qed.




(** X3: with the order of the keys being [operator<] itself, the kind of
    iterator shows in the result for [greater<T>] over a radix-sortable
    type only: otherwise the range ends over buffer iterators as it does
    over any other iterator; for [greater<T>] over a radix-sortable type
    the values that compare equal stand over buffer iterators in the
    reverse of the order they have over other iterators. *)
Theorem stable_sort_iterator_kind (c : compare T) queue :
  exact' → fits' (range queue) → strict_weak_order (cmp_of' c) →
  ((radix_case is_radix_sortable buffer_iterator c = true → c = less) →
   range (sort' buffer_iterator c queue) =
     range (sort' other_iterator c queue)) ∧
  (radix_case is_radix_sortable buffer_iterator c = true → c = greater →
   ∀ x, filter (λ y, equivalent (cmp_of' c) x y = true)
          (range (sort' buffer_iterator c queue)) =
        rev (filter (λ y, equivalent (cmp_of' c) x y = true)
               (range (sort' other_iterator c queue)))).
Proof.
  intros Hexact Hfits Hswo. split.
  - intros Hpath.
    destruct (sort_range_spec other_iterator c queue) as (Hs & Hp & _);
      [done..|by destruct c|].
    by apply sort_range_unique.
  - intros Hcase -> x.
    assert (Hradix : is_radix_sortable = true) by done.
    unfold stable_sort, dispatch_stable_sort. rewrite Hradix.
    cbn [range radix_sort reverse serial_insertion_sort].
    rewrite (insertion_sort_stable _ Hswo).
    rewrite !(exact_class op_lt radix_key greater) by auto.
    apply (radix_keys is_radix_sortable); [done|].
    intros _. by apply Hfits.
Qed.

End StableSortMore.



Lemma stable_sort_iterator_kind_witness :
  StableSort.range
    (StableSort.stable_sort StableSort.marked_lt true StableSort.marked_key 8
       StableSort.buffer_iterator StableSort.less
       (StableSort.Device [(1, 5); (0, 1); (0, 0)] [])) =
  StableSort.range
    (StableSort.stable_sort StableSort.marked_lt true StableSort.marked_key 8
       StableSort.other_iterator StableSort.less
       (StableSort.Device [(1, 5); (0, 1); (0, 0)] [])).
Proof.
  apply (stable_sort_iterator_kind StableSort.marked_lt true
           StableSort.marked_key 8 StableSort.less
           (StableSort.Device [(1, 5); (0, 1); (0, 0)] [])).
  - apply marked_exact.
  - intros _. simpl. repeat constructor.
  - apply marked_strict_weak_order. by left.
  - reflexivity.
Defined.

(** * Further properties of program *)

Section ProgramLifetimeMore.
Import Program.
Implicit Types (w : world) (h : N) (this other ret local : N).

Lemma released_retained h h' n : released h h' (retained h h' n) = n.
Proof. unfold released, retained. by destruct (non_null h && (h' =? h)). Qed.

Lemma program_adopt_effect this h w :
  program_ctor this h false w = set_m_program this h w.
Proof. unfold program_ctor. by rewrite andb_false_r. Qed.

Lemma m_program_ctor this h w : m_program (program_ctor this h true w) this = h.
Proof.
  destruct (program_ctor_effect this h w) as (Hobj & _).
  unfold m_program. by rewrite Hobj, lookup_insert_eq.
Qed.

Lemma m_program_copy this other w :
  m_program (program_copy this other w) this = m_program w other.
Proof.
  destruct (program_copy_effect this other w) as (Hobj & _).
  unfold m_program at 1. by rewrite Hobj, lookup_insert_eq.
Qed.

Lemma hand_over_effect how ret local w :
  how ≠ elided → ret ≠ local → objects w !! ret = None →
  objects (hand_over how ret local w) =
    <[ret := m_program w local]> (delete local (objects w)) ∧
  (∀ h', reference_count (hand_over how ret local w) h' = reference_count w h') ∧
  driver_calls (hand_over how ret local w) =
    driver_calls w ++
    match how with
    | copied => retain_calls (m_program w local) ++ release_calls (m_program w local)
    | _ => []
    end.
Proof.
  intros Hhow Hne Hfresh. destruct how; [done|..]; unfold hand_over.
  - destruct (program_dtor_effect local (program_move ret local w))
      as (Hobj & Hcalls & Hcount).
    assert (Hnull : m_program (program_move ret local w) local = 0)
      by apply m_program_set.
    rewrite Hnull in Hcalls, Hcount. split_and!.
    + rewrite Hobj. destruct (program_move_effect ret local w) as (-> & _).
      by rewrite delete_insert_eq, delete_insert_ne.
    + intros h'. by rewrite Hcount.
    + by rewrite Hcalls.
  - destruct (program_dtor_effect local (program_copy ret local w))
      as (Hobj & Hcalls & Hcount).
    destruct (program_copy_effect ret local w) as (Hobj' & Hcalls' & Hcount').
    assert (Hsame : m_program (program_copy ret local w) local = m_program w local).
    { unfold m_program at 1. by rewrite Hobj', lookup_insert_ne. }
    rewrite Hsame in Hcalls, Hcount. split_and!.
    + by rewrite Hobj, Hobj', delete_insert_ne.
    + intros h'. by rewrite Hcount, Hcount', released_retained.
    + by rewrite Hcalls, Hcalls', <-app_assoc.
Qed.

(** X5: [==] and [!=] compare the wrapped handles, so one is the negation
    of the other; a program compares equal to the one it was copy-constructed
    or copy-assigned from; after a move between two objects they compare
    equal only when the source wrapped no handle. *)
Theorem operator_eq_after_copy_and_move this other w :
  operator_ne this other w = negb (operator_eq this other w) ∧
  operator_eq this other (program_copy this other w) = true ∧
  operator_eq this other (copy_assign this other w) = true ∧
  (this ≠ other →
   operator_eq this other (program_move this other w) =
     negb (non_null (m_program w other)) ∧
   operator_eq this other (move_assign this other w) =
     negb (non_null (m_program w other))).
Proof.
  unfold operator_eq, operator_ne. split_and!; [done|..].
  - destruct (decide (this = other)) as [->|Hne]; [apply N.eqb_refl|].
    destruct (program_copy_effect this other w) as (Hobj & _).
    unfold m_program at 1 2. rewrite Hobj, lookup_insert_eq, lookup_insert_ne by done.
    apply N.eqb_refl.
  - destruct (decide (this = other)) as [->|Hne]; [apply N.eqb_refl|].
    destruct (copy_assign_effect this other w Hne) as (Hobj & _).
    unfold m_program at 1 2. rewrite Hobj, lookup_insert_eq, lookup_insert_ne by done.
    apply N.eqb_refl.
  - intros Hne. unfold non_null. rewrite negb_involutive.
    destruct (move_assign_effect this other w) as (Hobj & _).
    unfold m_program at 1 2 4 5.
    rewrite Hobj. simpl.
    by rewrite !lookup_insert_eq, !lookup_insert_ne, !lookup_insert_eq by done.
Qed.

(** X6: a program made in storage that holds no object and destroyed again
    leaves the objects and every reference count as they were: the retaining
    constructor and the copy constructor retain the handle once and the
    destructor releases it once.  Made with [retain] false it takes over a
    reference, which the destructor gives up. *)
Theorem temporary_round_trip this other h w :
  objects w !! this = None →
  (objects (program_dtor this (program_ctor this h true w)) = objects w ∧
   (∀ h', reference_count (program_dtor this (program_ctor this h true w)) h' =
          reference_count w h') ∧
   driver_calls (program_dtor this (program_ctor this h true w)) =
     driver_calls w ++ retain_calls h ++ release_calls h) ∧
  (objects (program_dtor this (program_copy this other w)) = objects w ∧
   (∀ h', reference_count (program_dtor this (program_copy this other w)) h' =
          reference_count w h') ∧
   driver_calls (program_dtor this (program_copy this other w)) =
     driver_calls w ++ retain_calls (m_program w other)
                    ++ release_calls (m_program w other)) ∧
  (objects (program_dtor this (program_ctor this h false w)) = objects w ∧
   (∀ h', reference_count (program_dtor this (program_ctor this h false w)) h' =
          released h h' (reference_count w h')) ∧
   driver_calls (program_dtor this (program_ctor this h false w)) =
     driver_calls w ++ release_calls h).
Proof.
  intros Hfresh. split_and!.
  - destruct (program_dtor_effect this (program_ctor this h true w)) as (-> & _).
    destruct (program_ctor_effect this h w) as (-> & _).
    by rewrite delete_insert_eq, delete_id.
  - intros h'.
    destruct (program_dtor_effect this (program_ctor this h true w)) as (_ & _ & ->).
    destruct (program_ctor_effect this h w) as (_ & _ & ->).
    rewrite m_program_ctor. apply released_retained.
  - destruct (program_dtor_effect this (program_ctor this h true w)) as (_ & -> & _).
    destruct (program_ctor_effect this h w) as (_ & -> & _).
    by rewrite m_program_ctor, <-app_assoc.
  - destruct (program_dtor_effect this (program_copy this other w)) as (-> & _).
    destruct (program_copy_effect this other w) as (-> & _).
    by rewrite delete_insert_eq, delete_id.
  - intros h'.
    destruct (program_dtor_effect this (program_copy this other w)) as (_ & _ & ->).
    destruct (program_copy_effect this other w) as (_ & _ & ->).
    rewrite m_program_copy. apply released_retained.
  - destruct (program_dtor_effect this (program_copy this other w)) as (_ & -> & _).
    destruct (program_copy_effect this other w) as (_ & -> & _).
    by rewrite m_program_copy, <-app_assoc.
  - rewrite program_adopt_effect.
    destruct (program_dtor_effect this (set_m_program this h w)) as (-> & _).
    simpl. by rewrite delete_insert_eq, delete_id.
  - intros h'. rewrite program_adopt_effect.
    destruct (program_dtor_effect this (set_m_program this h w)) as (_ & _ & ->).
    by rewrite m_program_set.
  - rewrite program_adopt_effect.
    destruct (program_dtor_effect this (set_m_program this h w)) as (_ & -> & _).
    by rewrite m_program_set.
Qed.

(** X7: handing a program from one object to a new one, by move construction
    or by copy construction, and destroying the first leaves every reference
    count as it was and the new object alone in place of the first; the move
    makes no call to the driver, the copy retains and releases once. *)
Theorem move_or_copy_out ret local w :
  ret ≠ local → objects w !! ret = None →
  (objects (program_dtor local (program_move ret local w)) =
     <[ret := m_program w local]> (delete local (objects w)) ∧
   (∀ h', reference_count (program_dtor local (program_move ret local w)) h' =
          reference_count w h') ∧
   driver_calls (program_dtor local (program_move ret local w)) =
     driver_calls w) ∧
  (objects (program_dtor local (program_copy ret local w)) =
     <[ret := m_program w local]> (delete local (objects w)) ∧
   (∀ h', reference_count (program_dtor local (program_copy ret local w)) h' =
          reference_count w h') ∧
   driver_calls (program_dtor local (program_copy ret local w)) =
     driver_calls w ++ retain_calls (m_program w local)
                    ++ release_calls (m_program w local)).
Proof.
  intros Hne Hfresh. split.
  - destruct (hand_over_effect moved ret local w) as (? & ? & Hcalls); [done..|].
    split_and!; [done..|]. by rewrite app_nil_r in Hcalls.
  - by destruct (hand_over_effect copied ret local w) as (? & ? & Hcalls).
Qed.

End ProgramLifetimeMore.

Lemma temporary_round_trip_witness :
  Program.reference_count
    (Program.program_dtor 3 (Program.program_copy 3 1 Program.two_copies)) 7 =
  Program.reference_count Program.two_copies 7.
Proof.
  destruct (temporary_round_trip 3 1 0 Program.two_copies eq_refl)
    as (_ & (_ & Hcount & _) & _).
  exact (Hcount 7).
Defined.

Lemma move_or_copy_out_witness :
  Program.driver_calls
    (Program.program_dtor 1 (Program.program_move 3 1 Program.two_copies)) =
  Program.driver_calls Program.two_copies.
Proof.
  apply (move_or_copy_out 3 1 Program.two_copies); [discriminate|reflexivity].
Defined.

Lemma operator_eq_after_copy_and_move_witness :
  Program.operator_eq 3 1 (Program.program_move 3 1 Program.two_copies) =
    negb (Program.non_null (Program.m_program Program.two_copies 1)).
Proof.
  apply (operator_eq_after_copy_and_move 3 1 Program.two_copies). discriminate.
Defined.

Section ProgramAccounts.
Import Program.
Implicit Types (w : world) (h x y old new : N) (this other : N).

Abbreviation same' a b := (if (a =? b)%N then 1%nat else 0%nat).

Ltac eqb_cases :=
  repeat match goal with
  | H : context [(_ =? _)%N] |- _ => revert H
  end;
  repeat match goal with
  | |- context [(?a =? ?b)%N] => destruct (N.eqb_spec a b)
  end;
  intros; subst; try done; try congruence; try lia.

(** The calls an operation adds and the objects it changes, for an
    operation that releases [old] and retains [new] while one object ceases
    to wrap [old] and one comes to wrap [new]. *)
Lemma accounts_step w w' old new h :
  h ≠ 0 →
  driver_calls w' = driver_calls w ++ release_calls old ++ retain_calls new →
  (owners h w' + same' old h = owners h w + same' new h)%nat →
  (retains h w' + releases h w + owners h w =
   releases h w' + owners h w' + retains h w)%nat.
Proof.
  intros Hh Hcalls Hown. unfold retains, releases.
  rewrite Hcalls, !filter_app, !length_app.
  destruct (retain_calls_count h new Hh) as [-> ->].
  destruct (release_calls_count h old Hh) as [-> ->].
  revert Hown. destruct (old =? h), (new =? h); lia.
Qed.

Lemma run_op_accounts o w h :
  valid o w = true → h ≠ 0 →
  (retains h (run_op o w) + releases h w + owners h w =
   releases h (run_op o w) + owners h (run_op o w) + retains h w)%nat.
Proof.
  intros Hvalid Hh.
  destruct o as [this p|this|this other|this other|this other|this other|this];
    simpl in *.
  - apply negb_true_iff, not_live_lookup in Hvalid.
    destruct (program_ctor_effect this p w) as (Hobj & Hcalls & _).
    apply (accounts_step w _ 0 p); try done.
    unfold owners. rewrite Hobj, own_insert_fresh by done. eqb_cases.
  - apply negb_true_iff, not_live_lookup in Hvalid.
    apply (accounts_step w _ 0 0); try done.
    + simpl. by rewrite app_nil_r.
    + unfold owners, program_default, set_m_program. cbn [objects].
      rewrite own_insert_fresh by done. eqb_cases.
  - apply andb_true_iff in Hvalid as [Hthis%negb_true_iff%not_live_lookup Hother].
    destruct (program_copy_effect this other w) as (Hobj & Hcalls & _).
    apply (accounts_step w _ 0 (m_program w other)); try done.
    unfold owners. rewrite Hobj, own_insert_fresh by done. eqb_cases.
  - apply andb_true_iff in Hvalid as [Hthis Hother].
    destruct (decide (this = other)) as [->|Hne].
    { unfold copy_assign. rewrite N.eqb_refl. simpl. lia. }
    destruct (copy_assign_effect this other w Hne) as (Hobj & Hcalls & _).
    apply (accounts_step w _ (m_program w this) (m_program w other)); try done.
    unfold owners. rewrite Hobj. apply own_insert_live. by apply live_lookup.
  - apply andb_true_iff in Hvalid as [Hthis%negb_true_iff%not_live_lookup Hother].
    apply live_lookup in Hother as Hother'.
    assert (this ≠ other) by congruence.
    apply (accounts_step w _ 0 0); try done.
    + simpl. by rewrite app_nil_r.
    + unfold owners.
      destruct (program_move_effect this other w) as (-> & _ & _).
      pose proof (own_insert_live (<[this := m_program w other]> (objects w))
                    other 0 (m_program w other) h) as Hstep.
      rewrite lookup_insert_ne in Hstep by done. specialize (Hstep Hother').
      rewrite (own_insert_fresh (objects w) this) in Hstep by done.
      eqb_cases.
  - apply andb_true_iff in Hvalid as [Hthis Hother].
    destruct (move_assign_effect this other w) as (Hobj & Hcalls & _).
    apply (accounts_step w _ (m_program w this) 0); try done.
    + by rewrite Hcalls, app_nil_r.
    + unfold owners. rewrite Hobj.
      apply live_lookup in Hthis, Hother.
      destruct (decide (this = other)) as [->|Hne].
      * rewrite insert_insert_eq.
        pose proof (own_insert_live (objects w) other 0 (m_program w other) h Hother).
        eqb_cases.
      * pose proof (own_insert_live (<[this := m_program w other]> (objects w))
                      other 0 (m_program w other) h) as Hstep.
        rewrite lookup_insert_ne in Hstep by done. specialize (Hstep Hother).
        pose proof (own_insert_live (objects w) this (m_program w other)
                      (m_program w this) h Hthis).
        eqb_cases.
  - destruct (program_dtor_effect this w) as (Hobj & Hcalls & _).
    apply (accounts_step w _ (m_program w this) 0); try done.
    + by rewrite Hcalls, app_nil_r.
    + unfold owners. rewrite Hobj.
      apply live_lookup in Hvalid.
      rewrite (own_delete (objects w) this _ h Hvalid). eqb_cases.
Qed.

Lemma run_step_accounts s w h :
  valid_step s w = true → h ≠ 0 →
  (retains h (run_step s w) + adoptions h [s] + releases h w + owners h w =
   releases h (run_step s w) + owners h (run_step s w) + retains h w)%nat.
Proof.
  intros Hvalid Hh. destruct s as [this p|o]; simpl in *.
  - apply negb_true_iff, not_live_lookup in Hvalid.
    rewrite program_adopt_effect. unfold retains, releases, owners.
    cbn [set_m_program objects driver_calls].
    rewrite own_insert_fresh by done. eqb_cases.
  - pose proof (run_op_accounts o w h Hvalid Hh). lia.
Qed.

Lemma run_step_null_calls s w :
  Retain 0 ∉ driver_calls w → Release 0 ∉ driver_calls w →
  (Retain 0 ∉ driver_calls (run_step s w)) ∧
  (Release 0 ∉ driver_calls (run_step s w)).
Proof.
  intros Hr Hl.
  assert (∀ old new w',
    driver_calls w' = driver_calls w ++ release_calls old ++ retain_calls new →
    (Retain 0 ∉ driver_calls w') ∧ (Release 0 ∉ driver_calls w')) as Hstep.
  { intros old new w' ->.
    destruct (null_not_called old) as (_ & _ & ? & ?).
    destruct (null_not_called new) as (? & ? & _ & _).
    by rewrite !not_elem_of_app. }
  destruct s as [this p|[this p|this|this other|this other|this other|this other|this]];
    cbn [run_step run_op].
  - by rewrite program_adopt_effect.
  - destruct (program_ctor_effect this p w) as (_ & Hcalls & _).
    by apply (Hstep 0 p).
  - done.
  - destruct (program_copy_effect this other w) as (_ & Hcalls & _).
    by apply (Hstep 0 (m_program w other)).
  - destruct (decide (this = other)) as [->|Hne].
    { unfold copy_assign. by rewrite N.eqb_refl. }
    destruct (copy_assign_effect this other w Hne) as (_ & Hcalls & _).
    by apply (Hstep (m_program w this) (m_program w other)).
  - done.
  - destruct (move_assign_effect this other w) as (_ & Hcalls & _).
    apply (Hstep (m_program w this) 0). by rewrite Hcalls, app_nil_r.
  - destruct (program_dtor_effect this w) as (_ & Hcalls & _).
    apply (Hstep (m_program w this) 0). by rewrite Hcalls, app_nil_r.
Qed.

(** X8: from any state and over any sequence of lifetime operations, the
    constructor with [retain] false included, the calls account for the
    objects: for every non-null handle, the retains made and the references
    taken over equal the releases made and the change in the number of
    objects that wrap the handle; and the null handle is passed to the
    driver by none of them. *)
Theorem lifetime_accounts steps w0 w :
  run_steps steps w0 = Some w →
  (∀ h, h ≠ 0 →
     (retains h w + adoptions h steps + releases h w0 + owners h w0 =
      releases h w + owners h w + retains h w0)%nat) ∧
  (Retain 0 ∉ driver_calls w0 → Release 0 ∉ driver_calls w0 →
   (Retain 0 ∉ driver_calls w) ∧ (Release 0 ∉ driver_calls w)).
Proof.
  revert w0. induction steps as [|s steps IH]; intros w0; simpl.
  { intros [= <-]. split; [intros; lia|done]. }
  destruct (valid_step s w0) eqn:Hvalid; [|done]. intros Hrun.
  destruct (IH _ Hrun) as [IHa IHn]. split.
  - intros h Hh. specialize (IHa h Hh).
    pose proof (run_step_accounts s w0 h Hvalid Hh) as Hs. simpl in Hs.
    destruct s; simpl in *; lia.
  - intros Hr Hl. destruct (run_step_null_calls s w0 Hr Hl). auto.
Qed.

End ProgramAccounts.

Lemma lifetime_accounts_witness :
  ∃ w,
    Program.run_steps
      [Program.adopting 3 7; Program.plain (Program.Copy 4 3);
       Program.plain (Program.Destroy 1); Program.plain (Program.Destroy 3)]
      Program.two_copies = Some w ∧
    (Program.retains 7 w + 1 + 0 + 2 = Program.releases 7 w + Program.owners 7 w + 2)%nat.
Proof.
  eexists. split; [vm_compute; reflexivity|].
  exact (proj1 (lifetime_accounts
    [Program.adopting 3 7; Program.plain (Program.Copy 4 3);
     Program.plain (Program.Destroy 1); Program.plain (Program.Destroy 3)]
    Program.two_copies _ eq_refl) 7 ltac:(discriminate)).
Defined.

(** ** More calls forwarded to the driver *)

Section ProgramDriverMore.
Import Program.
Variable clBuildProgram :
  N → option string → gmap N nat → Z * gmap N nat.
Variable clCreateProgramWithSource :
  N → list string → gmap N nat → (N * Z) * gmap N nat.
Variable clCreateProgramWithBinary :
  N → list N → list (list N) → gmap N nat → (N * Z * Z) * gmap N nat.
Variable clGetProgramInfo :
  ∀ T : info_type, N → N → result (value_of T).
Variable get_device_id : context → N.
Variable clCompileProgram :
  N → option string → gmap N nat → Z * gmap N nat.
Variable clLinkProgram :
  N → option string → list N → gmap N nat → (N * Z) * gmap N nat.
Variable clCreateProgramWithBuiltInKernels :
  N → list N → string → gmap N nat → (N * Z) * gmap N nat.
Variable clGetProgramBinaries : N → Z * list N.
Variable source_files : gmap string string.

(** X9: [compile] passes the handle and the options, a null pointer for the
    empty string, to [clCompileProgram], throws an [opencl_error] with the
    return code exactly when it is not [CL_SUCCESS], and touches neither the
    objects nor the reference-count calls. *)
Theorem compile_throws_iff (this : N) (options : string) (w : world) :
  let options_string :=
    if String.eqb options EmptyString then None else Some options in
  let ret := (clCompileProgram (m_program w this) options_string (refs w)).1 in
  let outcome := (compile clCompileProgram this options w).1 in
  ((∃ e, outcome = Throw e) ↔ ret ≠ CL_SUCCESS) ∧
  (∀ e, outcome = Throw e → e = Build_opencl_error ret) ∧
  (outcome = Return tt ↔ ret = CL_SUCCESS) ∧
  (compile clCompileProgram this options w).2 =
    World (objects w)
      (clCompileProgram (m_program w this) options_string (refs w)).2
      (driver_calls w).
Proof.
  simpl. unfold compile, CL_SUCCESS.
  destruct (clCompileProgram _ _ _) as [ret counts]. simpl.
  destruct (Z.eqb_spec ret 0) as [->|Hne]; simpl.
  - split_and!; [split; [by intros [e ?]|done]|done..].
  - split_and!; [split; [done|by eexists]|by intros e [= <-]|done..].
Qed.

(** X10: [link] hands the wrapped handles of the programs, in order, to
    [clLinkProgram]; it and [create_with_builtin_kernels] throw an
    [opencl_error] with the driver's code when the driver returns the null
    handle and create no object then; otherwise the returned object wraps
    the driver's handle, and no retain or release is made. *)
Theorem link_and_builtin_adopt_or_throw (ret : N) (programs : list N)
    (devices : list N) (kernel_names options : string) (ctx : context)
    (w : world) :
  (let options_string :=
     if String.eqb options EmptyString then None else Some options in
   let '(program_, code, counts) :=
     clLinkProgram (m_context ctx) options_string
       ((λ p, m_program w p) <$> programs) (refs w) in
   let out := link clLinkProgram ret programs ctx options w in
   driver_calls out.2 = driver_calls w ∧ refs out.2 = counts ∧
   (program_ = 0 →
    out.1 = Throw (Build_opencl_error code) ∧ objects out.2 = objects w) ∧
   (program_ ≠ 0 →
    out.1 = Return tt ∧ objects out.2 = <[ret := program_]> (objects w))) ∧
  (let '(program_, code, counts) :=
     clCreateProgramWithBuiltInKernels (m_context ctx) devices kernel_names
       (refs w) in
   let out :=
     create_with_builtin_kernels clCreateProgramWithBuiltInKernels ret ctx
       devices kernel_names w in
   driver_calls out.2 = driver_calls w ∧ refs out.2 = counts ∧
   (program_ = 0 →
    out.1 = Throw (Build_opencl_error code) ∧ objects out.2 = objects w) ∧
   (program_ ≠ 0 →
    out.1 = Return tt ∧ objects out.2 = <[ret := program_]> (objects w))).
Proof.
  split.
  - unfold link. destruct (clLinkProgram _ _ _ _) as [[program_ code] counts].
    destruct (N.eqb_spec program_ 0) as [->|Hne]; simpl;
      rewrite ?program_adopt_effect; by split_and!.
  - unfold create_with_builtin_kernels.
    destruct (clCreateProgramWithBuiltInKernels _ _ _ _)
      as [[program_ code] counts].
    destruct (N.eqb_spec program_ 0) as [->|Hne]; simpl;
      rewrite ?program_adopt_effect; by split_and!.
Qed.

(** X11: when the driver returns a handle for a binary but reports a binary
    status that is not [CL_SUCCESS], [create_with_binary] throws and leaves
    the handle as the driver returned it: no object wraps it and it is not
    released. *)
Theorem create_with_binary_bad_status (ret : N) (binary : list N)
    (ctx : context) (w : world) :
  let '(program_, binary_status, error, counts) :=
    clCreateProgramWithBinary (m_context ctx) [get_device_id ctx] [binary]
      (refs w) in
  let out :=
    create_with_binary clCreateProgramWithBinary get_device_id ret binary
      ctx w in
  program_ ≠ 0 → binary_status ≠ CL_SUCCESS →
  out.1 = Throw (Build_opencl_error binary_status) ∧
  objects out.2 = objects w ∧
  driver_calls out.2 = driver_calls w ∧
  owners program_ out.2 = owners program_ w ∧
  reference_count out.2 program_ = default 0%nat (counts !! program_).
Proof.
  unfold create_with_binary, CL_SUCCESS.
  destruct (clCreateProgramWithBinary _ _ _ _)
    as [[[program_ binary_status] error] counts].
  intros Hne Hstatus.
  destruct (N.eqb_spec program_ 0); [done|].
  by destruct (Z.eqb_spec binary_status 0).
Qed.

(** X12: [create_with_source_file] gives the driver the characters of the
    file; for a file that cannot be opened it gives the empty source and
    throws nothing of its own: it throws exactly when the driver returns the
    null handle for the source it was given. *)
Theorem create_with_source_file_missing (ret : N) (file : string)
    (ctx : context) (w : world) :
  let out :=
    create_with_source_file clCreateProgramWithSource source_files ret file
      ctx w in
  (source_files !! file = None →
   out = create_with_source clCreateProgramWithSource ret EmptyString ctx w) ∧
  (∀ text, source_files !! file = Some text →
   out = create_with_source clCreateProgramWithSource ret text ctx w) ∧
  ((∃ e, out.1 = Throw e) ↔
   (clCreateProgramWithSource (m_context ctx)
      [default EmptyString (source_files !! file)] (refs w)).1.1 = 0).
Proof.
  simpl. unfold create_with_source_file. split_and!.
  - by intros ->.
  - by intros text ->.
  - unfold create_with_source.
    destruct (clCreateProgramWithSource _ _ _) as [[program_ error] counts].
    simpl. destruct (N.eqb_spec program_ 0) as [->|Hne]; simpl.
    + split; [done|by eexists].
    + split; [by intros [e ?]|done].
Qed.

(** X13: [build_with_source], for storage [ret] and [local] that hold no
    object: if the driver returns the null handle it throws the driver's
    error and nothing has changed but the driver's counts; if the build
    fails it throws the build's return code, and the local program is
    destroyed, releasing the new handle once; if the build succeeds the
    returned object is the only new object, it wraps the new handle, and
    the reference counts are as the driver left them, whether the local is
    returned in place, moved or copied. *)
Theorem build_with_source_outcomes (how : return_by) (ret local : N)
    (source options : string) (ctx : context) (w : world) :
  ret ≠ local → objects w !! ret = None → objects w !! local = None →
  let '(program_, error, counts) :=
    clCreateProgramWithSource (m_context ctx) [source] (refs w) in
  let options_string :=
    if String.eqb options EmptyString then None else Some options in
  let '(code, counts') := clBuildProgram program_ options_string counts in
  let out :=
    build_with_source clBuildProgram clCreateProgramWithSource how ret local
      source ctx options w in
  (program_ = 0 →
   out.1 = Throw (Build_opencl_error error) ∧ objects out.2 = objects w ∧
   driver_calls out.2 = driver_calls w ∧ refs out.2 = counts) ∧
  (program_ ≠ 0 → code ≠ CL_SUCCESS →
   out.1 = Throw (Build_opencl_error code) ∧ objects out.2 = objects w ∧
   driver_calls out.2 = driver_calls w ++ [Release program_] ∧
   ∀ h', reference_count out.2 h' =
         released program_ h' (default 0%nat (counts' !! h'))) ∧
  (program_ ≠ 0 → code = CL_SUCCESS →
   out.1 = Return tt ∧ objects out.2 = <[ret := program_]> (objects w) ∧
   (∀ h', reference_count out.2 h' = default 0%nat (counts' !! h')) ∧
   driver_calls out.2 =
     driver_calls w ++
     match how with
     | copied => [Retain program_; Release program_]
     | _ => []
     end).
Proof.
  intros Hne Hret Hlocal. unfold build_with_source.
  destruct (clCreateProgramWithSource _ _ _) as [[program_ error] counts].
  destruct (clBuildProgram program_ _ counts) as [code counts'] eqn:Hbuild.
  destruct (N.eqb_spec program_ 0) as [->|Hprog]; simpl; [by split_and!|].
  rewrite program_adopt_effect. unfold build. rewrite m_program_set.
  cbn [refs set_m_program]. rewrite Hbuild. unfold CL_SUCCESS.
  assert (Hfresh : objects w !! local_at how ret local = None)
    by by destruct how.
  assert (Hnn : non_null program_ = true).
  { unfold non_null. by destruct (N.eqb_spec program_ 0). }
  destruct (Z.eqb_spec code 0) as [->|Hcode];
    cbn [negb fst snd objects refs driver_calls set_m_program];
    split_and!; try done.
  - intros _ _.
    set (w2 := World (<[local_at how ret local := program_]> (objects w))
                 counts' (driver_calls w)).
    assert (Hm : m_program w2 (local_at how ret local) = program_).
    { unfold m_program, w2. simpl. by rewrite lookup_insert_eq. }
    destruct how.
    + simpl. by rewrite app_nil_r.
    + destruct (hand_over_effect moved ret local w2) as (Hobj & Hcount & Hcalls);
        [done..| |].
      { unfold w2. simpl. by rewrite lookup_insert_ne. }
      cbn [local_at] in *. rewrite Hobj, Hcalls, Hm. split_and!; try done.
      unfold w2. simpl. by rewrite delete_insert_eq, delete_id.
    + destruct (hand_over_effect copied ret local w2) as (Hobj & Hcount & Hcalls);
        [done..| |].
      { unfold w2. simpl. by rewrite lookup_insert_ne. }
      cbn [local_at] in *. rewrite Hobj, Hcalls, Hm.
      split_and!; try done;
        [unfold w2; simpl; by rewrite delete_insert_eq, delete_id
        |unfold retain_calls, release_calls; by rewrite Hnn].
  - intros _ _.
    set (w2 := World (<[local_at how ret local := program_]> (objects w))
                 counts' (driver_calls w)).
    assert (Hm : m_program w2 (local_at how ret local) = program_).
    { unfold m_program, w2. simpl. by rewrite lookup_insert_eq. }
    destruct (program_dtor_effect (local_at how ret local) w2)
      as (Hobj & Hcalls & Hcount).
    rewrite Hobj, Hcalls, Hm. split_and!; try done.
    + unfold w2. simpl. by rewrite delete_insert_eq, delete_id.
    + unfold release_calls. by rewrite Hnn.
    + intros h'. by rewrite Hcount, Hm.
Qed.

(** X14: [binary()] throws what the size query throws, or an
    [opencl_error] with the code of the binaries query when that is not
    [CL_SUCCESS]; otherwise the vector it returns has as many bytes as the
    size query said, and is what the driver wrote when that has this many
    bytes. *)
Theorem binary_size_and_errors (this : N) (w : world) :
  match clGetProgramInfo T_size_t (m_program w this) CL_PROGRAM_BINARY_SIZES with
  | Throw e => binary clGetProgramInfo clGetProgramBinaries this w = Throw e
  | Return binary_size =>
      let '(error, written) := clGetProgramBinaries (m_program w this) in
      (error ≠ CL_SUCCESS →
       binary clGetProgramInfo clGetProgramBinaries this w =
         Throw (Build_opencl_error error)) ∧
      (error = CL_SUCCESS →
       ∃ b, binary clGetProgramInfo clGetProgramBinaries this w = Return b ∧
            length b = N.to_nat binary_size ∧
            (length written = N.to_nat binary_size → b = written))
  end.
Proof.
  unfold binary, get_info, get_object_info, CL_SUCCESS.
  destruct (clGetProgramInfo T_size_t _ _) as [binary_size|e]; [|done].
  destruct (clGetProgramBinaries _) as [error written].
  destruct (Z.eqb_spec error 0) as [->|Herr]; simpl; split; try done.
  intros _. eexists. split_and!; [done|..].
  - rewrite length_app, length_take, length_drop, !length_replicate. lia.
  - intros Hlen. rewrite length_replicate, <-Hlen, firstn_all.
    rewrite drop_ge by (rewrite length_replicate; lia). apply app_nil_r.
Qed.

End ProgramDriverMore.

Lemma link_and_builtin_adopt_or_throw_witness :
  (Program.link Program.failing_link 3 [1; 2] (Program.Build_context 9)
     EmptyString Program.two_copies).1 =
    Program.Throw (Program.Build_opencl_error (-17)) ∧
  Program.objects
    (Program.create_with_builtin_kernels Program.builtin_driver 3
       (Program.Build_context 9) [4] "scan" Program.two_copies).2 =
    <[3 := 8]> (Program.objects Program.two_copies).
Proof.
  pose proof (link_and_builtin_adopt_or_throw
    Program.failing_link Program.builtin_driver 3 [1; 2] [4] "scan"
    EmptyString (Program.Build_context 9) Program.two_copies)
    as [Hlink Hbuiltin].
  cbv beta iota zeta delta [Program.failing_link Program.builtin_driver]
    in Hlink, Hbuiltin.
  destruct Hlink as (_ & _ & Hlink & _).
  destruct Hbuiltin as (_ & _ & _ & Hbuiltin).
  split; [apply Hlink; reflexivity|apply Hbuiltin; discriminate].
Defined.

Lemma create_with_binary_bad_status_witness :
  Program.driver_calls
    (Program.create_with_binary Program.binary_driver (λ _, 3) 1 [0; 1]
       (Program.Build_context 9) (Program.initial ∅)).2 = [] ∧
  Program.reference_count
    (Program.create_with_binary Program.binary_driver (λ _, 3) 1 [0; 1]
       (Program.Build_context 9) (Program.initial ∅)).2 6 = 1%nat.
Proof.
  pose proof (create_with_binary_bad_status Program.binary_driver (λ _, 3)
    1 [0; 1] (Program.Build_context 9) (Program.initial ∅)) as H.
  cbv beta iota zeta delta [Program.binary_driver] in H.
  destruct H as (_ & _ & Hcalls & _ & Hcount); [discriminate..|].
  split; [exact Hcalls|exact Hcount].
Defined.

Lemma create_with_source_file_missing_witness :
  Program.create_with_source_file Program.source_driver ∅ 1 "missing.cl"
    (Program.Build_context 9) (Program.initial ∅) =
  Program.create_with_source Program.source_driver 1 EmptyString
    (Program.Build_context 9) (Program.initial ∅).
Proof.
  exact (proj1 (create_with_source_file_missing Program.source_driver ∅ 1
                  "missing.cl" (Program.Build_context 9) (Program.initial ∅))
           (lookup_empty _)).
Defined.

Lemma build_with_source_outcomes_witness :
  (Program.build_with_source Program.failing_build Program.source_driver
     Program.moved 1 2 "kernel" (Program.Build_context 9) EmptyString
     (Program.initial ∅)).1 =
    Program.Throw (Program.Build_opencl_error (-11)) ∧
  Program.driver_calls
    (Program.build_with_source Program.failing_build Program.source_driver
       Program.moved 1 2 "kernel" (Program.Build_context 9) EmptyString
       (Program.initial ∅)).2 = [Program.Release 5].
Proof.
  pose proof (build_with_source_outcomes Program.failing_build
    Program.source_driver Program.moved 1 2 "kernel" EmptyString
    (Program.Build_context 9) (Program.initial ∅)
    ltac:(discriminate) eq_refl eq_refl) as H.
  cbv beta iota zeta delta [Program.failing_build Program.source_driver] in H.
  destruct H as (_ & H & _).
  destruct H as (Hthrow & _ & Hcalls & _); [discriminate..|].
  split; [exact Hthrow|exact Hcalls].
Defined.

Lemma binary_size_and_errors_witness :
  ∃ b, Program.binary Program.info_driver Program.binaries_driver 1
         Program.two_copies = Program.Return b ∧
       length b = 3%nat.
Proof.
  pose proof (binary_size_and_errors Program.info_driver
    Program.binaries_driver 1 Program.two_copies) as H.
  cbv beta iota zeta delta [Program.info_driver Program.binaries_driver] in H.
  destruct H as [_ H]. destruct (H eq_refl) as (b & Hb & Hlen & _).
  exists b. split; [exact Hb|exact Hlen].
Defined.

(** * Properties of the offline cache *)

Section StringFacts.
Implicit Types (a b c s t : string).

Lemma string_app_nil b : EmptyString +:+ b = b.
Proof. done. Qed.

Lemma string_app_cons x a b : String x a +:+ b = String x (a +:+ b).
Proof. done. Qed.

Lemma string_app_assoc a b c : (a +:+ b) +:+ c = a +:+ (b +:+ c).
Proof.
  induction a as [|x a IH]; [done|]. rewrite !string_app_cons. by f_equal.
Qed.

Lemma string_app_length a b :
  String.length (a +:+ b) = (String.length a + String.length b)%nat.
Proof.
  induction a as [|x a IH]; [done|]. rewrite string_app_cons. simpl. by f_equal.
Qed.

Lemma string_app_inv_head t a b : t +:+ a = t +:+ b → a = b.
Proof.
  induction t as [|x t IH]; [done|]. rewrite !string_app_cons. intros [= ?]. auto.
Qed.

Lemma string_app_inv_tail a b t : a +:+ t = b +:+ t → a = b.
Proof.
  revert b. induction a as [|x a IH]; intros [|y b] Heq.
  - done.
  - apply (f_equal String.length) in Heq.
    rewrite string_app_nil, string_app_cons in Heq. simpl in Heq.
    rewrite string_app_length in Heq. lia.
  - apply (f_equal String.length) in Heq.
    rewrite string_app_nil, string_app_cons in Heq. simpl in Heq.
    rewrite string_app_length in Heq. lia.
  - rewrite !string_app_cons in Heq. injection Heq as -> Heq. f_equal. by apply IH.
Qed.

Lemma string_app_inv_length a a' b b' :
  String.length a = String.length a' → a +:+ b = a' +:+ b' → a = a' ∧ b = b'.
Proof.
  revert a'. induction a as [|x a IH]; intros [|y a'] Hlen Heq; try done.
  rewrite !string_app_cons in Heq.
  injection Heq as -> Heq. injection Hlen as Hlen.
  destruct (IH a' Hlen Heq) as [-> ->]. done.
Qed.

Lemma substring_all s n : (String.length s ≤ n)%nat → substring 0 n s = s.
Proof.
  revert n. induction s as [|x s IH]; intros [|n] Hn; simpl in *; try done.
  - lia.
  - rewrite IH by lia. done.
Qed.

Lemma substr_split hash :
  (2 ≤ String.length hash)%nat →
  hash = substring 0 2 hash +:+ substring 2 (String.length hash) hash ∧
  String.length (substring 0 2 hash) = 2%nat.
Proof.
  destruct hash as [|x [|y rest]]; simpl; try lia. intros _.
  replace (substring 0 0 rest) with EmptyString by by destruct rest.
  rewrite substring_all by lia. by rewrite !string_app_cons.
Qed.

End StringFacts.

Lemma le_bytes_value k n :
  n < 256 ^ N.of_nat k →
  length (Program.le_bytes k n) = k ∧
  Program.le_value (Program.le_bytes k n) = n.
Proof.
  revert n. induction k as [|k IH]; intros n Hn.
  - simpl in *. split; [done|lia].
  - rewrite Nat2N.inj_succ, N.pow_succ_r' in Hn.
    cbn [Program.le_bytes Program.le_value length].
    destruct (IH (n / 256)) as [Hlen Hval].
    { apply N.Div0.div_lt_upper_bound. lia. }
    rewrite Hlen, Hval. split; [done|].
    pose proof (N.div_mod n 256). lia.
Qed.

Section OfflineCacheProperties.
Import Program.
Variable clCreateProgramWithBinary :
  N → list N → list (list N) → gmap N nat → (N * Z * Z) * gmap N nat.
Variable clGetProgramInfo :
  ∀ T : info_type, N → N → result (value_of T).
Variable clGetProgramBinaries : N → Z * list N.
Variable get_device_id : context → N.
Variable WIN32 : bool.
Variable getenv : string → string.
Variable delim : string.
Variable create_directories : string → bool.
Variable can_write : string → bool.
Variable size_t_bytes : N → list N.
Variable size_t_value : list N → N.
Variable sizeof_size_t : nat.

Abbreviation path_of :=
  (program_binary_path WIN32 getenv delim create_directories).
Abbreviation appdata := (appdata_path WIN32 getenv delim).
Abbreviation save :=
  (save_program_binary clGetProgramInfo clGetProgramBinaries WIN32 getenv
     delim create_directories can_write size_t_bytes).
Abbreviation load :=
  (load_program_binary clCreateProgramWithBinary get_device_id WIN32 getenv
     delim create_directories size_t_value sizeof_size_t).

Lemma path_of_short hash create :
  (String.length hash < 2)%nat → path_of hash create = Raise out_of_range.
Proof.
  intros Hlen. unfold program_binary_path, substr.
  destruct (Nat.ltb_spec (String.length hash) 2); [|lia].
  by destruct (String.length hash <? 0)%nat.
Qed.

Lemma path_of_normal hash create path :
  path_of hash create = Normal path →
  (2 ≤ String.length hash)%nat ∧
  path = appdata +:+ delim +:+ substring 0 2 hash +:+ delim
         +:+ substring 2 (String.length hash) hash +:+ delim ∧
  path_of hash false = Normal path.
Proof.
  unfold program_binary_path, substr, path_delim.
  destruct (Nat.ltb_spec (String.length hash) 2); simpl.
  { by destruct (String.length hash <? 0)%nat. }
  destruct (create && negb (create_directories _)); [done|].
  intros [= <-]. split_and!; [done| |done].
  by rewrite !string_app_assoc.
Qed.

(** X15: [program_binary_path] throws [std::out_of_range] exactly for a hash
    of fewer than two characters; otherwise the path is the application
    directory, the first two characters of the hash and the rest of it, each
    followed by the delimiter, it is the same with and without [create], and
    two hashes with the same path are the same hash. *)
Theorem program_binary_path_spec hash create :
  ((String.length hash < 2)%nat ↔
   program_binary_path WIN32 getenv delim create_directories hash create =
     Raise out_of_range) ∧
  (∀ path, path_of hash create = Normal path →
     path_of hash false = Normal path ∧
     ∃ first rest,
       hash = first +:+ rest ∧ String.length first = 2%nat ∧
       path = appdata_path WIN32 getenv delim
              +:+ delim +:+ first +:+ delim +:+ rest +:+ delim) ∧
  (∀ hash' create' path,
     path_of hash create = Normal path → path_of hash' create' = Normal path →
     hash = hash').
Proof.
  split_and!.
  - split; [apply path_of_short|].
    intros Hraise. destruct (Nat.lt_ge_cases (String.length hash) 2) as [|Hlen]; [done|].
    exfalso. revert Hraise. unfold program_binary_path, substr.
    destruct (Nat.ltb_spec (String.length hash) 2); [lia|]. simpl.
    by destruct (create && negb (create_directories _)).
  - intros path (Hlen & -> & Hfalse)%path_of_normal.
    split; [done|]. destruct (substr_split hash Hlen) as [Hhash Hfirst].
    by exists (substring 0 2 hash), (substring 2 (String.length hash) hash).
  - intros hash' create' path (Hlen & Hpath & _)%path_of_normal
      (Hlen' & Hpath' & _)%path_of_normal.
    destruct (substr_split hash Hlen) as [Hhash Hfirst].
    destruct (substr_split hash' Hlen') as [Hhash' Hfirst'].
    rewrite Hpath in Hpath'.
    apply string_app_inv_head, string_app_inv_head in Hpath'.
    apply string_app_inv_length in Hpath' as [Hf Hrest]; [|congruence].
    apply string_app_inv_head, string_app_inv_tail in Hrest.
    rewrite Hhash, Hhash'. congruence.
Qed.

(** X16: what [save_program_binary] writes, [load_program_binary] reads
    back: after a save that could open the file and got the binary [b] from
    the program, the file holds the size of [b] and then [b], and a load
    with the same hash hands exactly [b] to [create_with_binary].  The bytes
    of a [size_t] must stand for the size they were made from. *)
Theorem offline_cache_round_trip (how : return_by) (ret temp prog : N)
    (hash path : string) (ctx : context) (files : gmap string (list N))
    (w w' : world) (b : list N) :
  (length (size_t_bytes (N.of_nat (length b))) = sizeof_size_t ∧
   size_t_value (size_t_bytes (N.of_nat (length b))) = N.of_nat (length b)) →
  path_of hash true = Normal path →
  can_write (path +:+ "kernel") = true →
  binary clGetProgramInfo clGetProgramBinaries prog w = Return b →
  (save hash prog files w).1 = Normal tt ∧
  (save hash prog files w).2 =
    <[path +:+ "kernel" := size_t_bytes (N.of_nat (length b)) ++ b]> files ∧
  load how ret temp hash ctx (save hash prog files w).2 w' =
    match create_with_binary clCreateProgramWithBinary get_device_id
            (local_at how ret temp) b ctx w' with
    | (Throw e, w1) => (Raise (opencl e), w1)
    | (Return _, w1) =>
        (Normal true, hand_over how ret (local_at how ret temp) w1)
    end.
Proof.
  intros [Hlen Hval] Hpath Hcan Hbinary.
  assert (Hsave : save hash prog files w =
    (Normal tt,
     <[path +:+ "kernel" := size_t_bytes (N.of_nat (length b)) ++ b]> files)).
  { unfold save_program_binary. rewrite Hpath, Hcan, Hbinary. simpl.
    by rewrite insert_insert_eq. }
  rewrite Hsave. split_and!; [done..|]. cbn [snd].
  apply path_of_normal in Hpath as (_ & _ & Hpath).
  unfold load_program_binary. rewrite Hpath, lookup_insert_eq.
  destruct (Nat.ltb_spec (length (size_t_bytes (N.of_nat (length b)) ++ b))
              sizeof_size_t) as [Hshort|_].
  { rewrite length_app in Hshort. lia. }
  rewrite take_app_length', drop_app_length' by done.
  by rewrite Hval, Nat2N.id, resize_all.
Qed.

(** X17: the cache at its edges.  A load finds no file: it returns the
    empty optional and leaves the world as it is.  A save cannot open the
    file: it returns with nothing written.  A save whose program cannot
    give its binary throws that error after the file was opened, so an
    empty file is left.  A hash of fewer than two characters makes both
    throw [std::out_of_range] with nothing changed. *)
Theorem offline_cache_edges (how : return_by) (ret temp prog : N)
    (hash : string) (ctx : context) (files : gmap string (list N))
    (w : world) :
  (∀ path, path_of hash false = Normal path →
     files !! (path +:+ "kernel") = None →
     load how ret temp hash ctx files w = (Normal false, w)) ∧
  (∀ path, path_of hash true = Normal path →
     can_write (path +:+ "kernel") = false →
     save hash prog files w = (Normal tt, files)) ∧
  (∀ path e, path_of hash true = Normal path →
     can_write (path +:+ "kernel") = true →
     binary clGetProgramInfo clGetProgramBinaries prog w = Throw e →
     save hash prog files w =
       (Raise (opencl e), <[path +:+ "kernel" := []]> files)) ∧
  ((String.length hash < 2)%nat →
   load how ret temp hash ctx files w = (Raise out_of_range, w) ∧
   save hash prog files w = (Raise out_of_range, files)).
Proof.
  split_and!.
  - intros path Hpath Hfile. unfold load_program_binary. by rewrite Hpath, Hfile.
  - intros path Hpath Hcan. unfold save_program_binary. by rewrite Hpath, Hcan.
  - intros path e Hpath Hcan Hbinary. unfold save_program_binary.
    by rewrite Hpath, Hcan, Hbinary.
  - intros Hlen. unfold load_program_binary, save_program_binary.
    by rewrite !path_of_short.
Qed.

End OfflineCacheProperties.

Lemma program_binary_path_spec_witness :
  Program.program_binary_path false (λ _, "/home/u") "/" (λ _, true)
    "0a1b2c" false =
  Program.Normal "/home/u/.boost_compute/0a/1b2c/".
Proof.
  apply (program_binary_path_spec false (λ _, "/home/u") "/" (λ _, true)
           "0a1b2c" true).
  reflexivity.
Defined.

Lemma offline_cache_round_trip_witness :
  Program.load_program_binary Program.binary_driver (λ _, 3) false
    (λ _, "/home/u") "/" (λ _, true) Program.le_value 8
    Program.moved 4 5 "0a1b2c" (Program.Build_context 9)
    (Program.save_program_binary Program.info_driver Program.binaries_driver
       false (λ _, "/home/u") "/" (λ _, true) (λ _, true) (Program.le_bytes 8)
       "0a1b2c" 1 ∅ Program.two_copies).2
    Program.two_copies =
  match Program.create_with_binary Program.binary_driver (λ _, 3)
          (Program.local_at Program.moved 4 5) [1; 2; 3]
          (Program.Build_context 9) Program.two_copies with
  | (Program.Throw e, w1) => (Program.Raise (Program.opencl e), w1)
  | (Program.Return _, w1) =>
      (Program.Normal true,
       Program.hand_over Program.moved 4 (Program.local_at Program.moved 4 5) w1)
  end.
Proof.
  apply (offline_cache_round_trip Program.binary_driver Program.info_driver
           Program.binaries_driver (λ _, 3) false (λ _, "/home/u") "/"
           (λ _, true) (λ _, true) (Program.le_bytes 8) Program.le_value 8
           Program.moved 4 5 1 "0a1b2c" "/home/u/.boost_compute/0a/1b2c/"
           (Program.Build_context 9) ∅ Program.two_copies Program.two_copies
           [1; 2; 3]).
  - apply (le_bytes_value 8). reflexivity.
  - reflexivity.
  - reflexivity.
  - reflexivity.
Defined.

Lemma offline_cache_edges_witness :
  Program.load_program_binary Program.binary_driver (λ _, 3) false
    (λ _, "/home/u") "/" (λ _, true) Program.le_value 8
    Program.moved 4 5 "0a1b2c" (Program.Build_context 9) ∅
    Program.two_copies = (Program.Normal false, Program.two_copies).
Proof.
  apply (proj1 (offline_cache_edges Program.binary_driver Program.info_driver
           Program.binaries_driver (λ _, 3) false (λ _, "/home/u") "/"
           (λ _, true) (λ _, true) (Program.le_bytes 8) Program.le_value 8
           Program.moved 4 5 1 "0a1b2c" (Program.Build_context 9) ∅
           Program.two_copies) "/home/u/.boost_compute/0a/1b2c/").
  - reflexivity.
  - apply lookup_empty.
Defined.
